(** * UniProtKBAPIConnection: the paginated query client of [uniprot_conn.py]

    A shallow embedding of the connection class and of the parts of the
    libraries it drives (the session's retrying transport, the [Link]
    header pattern, the tab-separated reader), followed by the theorems
    about pagination, retries, URL construction and next-link
    extraction. *)

From Stdlib Require Import ZArith String Ascii List Bool Lia.
From Stdlib Require Import DecimalString DecimalPos DecimalZ.
From stdpp Require Import base option list gmap strings.

Local Open Scope string_scope.
Local Open Scope Z_scope.

#[local] Arguments String.append !_ _ / : simpl nomatch.

(** ** Text helpers (the [str] methods the source and its libraries use) *)

Module Text.

Definition dquote : ascii := "034"%char.
Definition newline : ascii := "010"%char.
Definition tab : ascii := "009"%char.

Definition is_upper (c : ascii) : bool :=
  let n := nat_of_ascii c in (Nat.leb 65 n && Nat.leb n 90)%bool.

(** [str.lower] on ASCII text. *)
Definition lower_char (c : ascii) : ascii :=
  if is_upper c then ascii_of_nat (nat_of_ascii c + 32) else c.

Fixpoint lower (s : string) : string :=
  match s with
  | EmptyString => EmptyString
  | String c s' => String (lower_char c) (lower s')
  end.

(** [s.startswith(p)] *)
Fixpoint startswith (p s : string) : bool :=
  match p, s with
  | EmptyString, _ => true
  | String a p', String b s' => (Ascii.eqb a b && startswith p' s')%bool
  | String _ _, EmptyString => false
  end.

(** [c in s] for a single character. *)
Fixpoint contains (c : ascii) (s : string) : bool :=
  match s with
  | EmptyString => false
  | String a s' => (Ascii.eqb a c || contains c s')%bool
  end.

(** [s.split(sep)] for a one-character separator: never empty. *)
Fixpoint split (sep : ascii) (s : string) : list string :=
  match s with
  | EmptyString => [EmptyString]
  | String a s' =>
      if Ascii.eqb a sep then EmptyString :: split sep s'
      else match split sep s' with
           | [] => [String a EmptyString]
           | w :: ws => String a w :: ws
           end
  end.

(** [s.partition(sep)] reduced to (head, tail-after-sep); [None] when
    [sep] does not occur. *)
Fixpoint partition (sep : ascii) (s : string) : option (string * string) :=
  match s with
  | EmptyString => None
  | String a s' =>
      if Ascii.eqb a sep then Some (EmptyString, s')
      else match partition sep s' with
           | Some (h, t) => Some (String a h, t)
           | None => None
           end
  end.

(** [sep.join(l)] *)
Fixpoint join (sep : string) (l : list string) : string :=
  match l with
  | [] => EmptyString
  | [x] => x
  | x :: l' => x +:+ sep +:+ join sep l'
  end.

End Text.

(** ** Exceptions, headers and responses *)

(** The exceptions that can travel through [get_batch] and [_query]. *)
Inductive Exn : Type :=
  | HTTPError (status : Z)        (* response.raise_for_status() *)
  | KeyError (key : string)       (* response.headers[...] *)
  | ConnectionError               (* transport failure, retries exhausted *)
  | RetryError                    (* too many responses with a forced status *)
  | InvalidSchema                 (* no adapter mounted for the URL *)
  | EmptyDataError                (* pandas: no columns to parse *)
  | ParserError.                  (* pandas: error tokenizing data *)

(** [response.headers] is requests' case-insensitive dictionary: it is
    keyed by the lower-cased header name, and every lookup lower-cases
    the name it is given. *)
Abbreviation Headers := (gmap string string).

Definition headers_of (l : list (string * string)) : Headers :=
  foldl (fun h kv => <[Text.lower (fst kv) := snd kv]> h) ∅ l.

(** [name in headers] *)
Definition headers_contains (name : string) (h : Headers) : bool :=
  bool_decide (is_Some (h !! Text.lower name)).

(** [headers[name]] *)
Definition headers_getitem (name : string) (h : Headers) : Exn + string :=
  match h !! Text.lower name with
  | Some v => inr v
  | None => inl (KeyError name)
  end.

Record Response : Type := mkResponse {
  status_code : Z;
  headers : Headers;
  text : string
}.

(** [response.raise_for_status()]: client and server error statuses raise. *)
Definition raise_for_status (r : Response) : Exn + unit :=
  if ((400 <=? status_code r) && (status_code r <? 600))%bool
  then inl (HTTPError (status_code r))
  else inr tt.

(** ** LINK_REGEX = re.compile(r'<(.+)>; rel="next"') *)

(** The literal that follows the group: [>; rel="next"]. *)
Definition REL_NEXT : string :=
  ">; rel=" +:+ String Text.dquote ("next" +:+ String Text.dquote EmptyString).

(** Greedy [.*] followed by the literal [lit]: the longest run of
    non-newline characters after which [lit] starts; the run is returned. *)
Fixpoint match_dots_then (lit s : string) : option string :=
  let here := if Text.startswith lit s then Some EmptyString else None in
  match s with
  | EmptyString => here
  | String c s' =>
      if Ascii.eqb c Text.newline then here
      else match match_dots_then lit s' with
           | Some u => Some (String c u)
           | None => here
           end
  end.

(** [s] is a single-line [u], then [lit], then anything. *)
Definition dots_form (lit s u : string) : Prop :=
  Text.contains Text.newline u = false /\ exists rest, s = u +:+ lit +:+ rest.

(** [LINK_REGEX.match(value)] followed by [.group(1)]: anchored at the
    start of the value, [<], then [.+] (at least one character, none of
    them a newline, as many as possible), then the literal. *)
Definition LINK_REGEX_match (value : string) : option string :=
  match value with
  | String "<"%char (String c s') =>
      if Ascii.eqb c Text.newline then None
      else String c <$> match_dots_then REL_NEXT s'
  | _ => None
  end.

(** [get_next_link]: falls off the end (returns [None]) without a match. *)
Definition get_next_link (headers : Headers) : option string :=
  if headers_contains "Link" headers then
    match headers_getitem "Link" headers with
    | inr value => LINK_REGEX_match value
    | inl _ => None
    end
  else None.

(** The pattern read declaratively: the value starts with [<URL>; rel="next"]
    for a non-empty, single-line [URL]. *)
Definition link_form (value url : string) : Prop :=
  url <> EmptyString /\ Text.contains Text.newline url = false /\
  exists rest, value = "<" +:+ url +:+ REL_NEXT +:+ rest.

(** What the regular expression engine reports for group 1: the longest
    [URL] the value has the form for. *)
Definition link_pattern (value url : string) : Prop :=
  link_form value url /\
  forall url', link_form value url' -> (String.length url' <= String.length url)%nat.

(** ** The connection object *)

(** urllib3's [Retry(total=..., backoff_factor=..., status_forcelist=...)].
    The backoff factor only scales the pause between attempts; it is kept
    as the fraction [num/den]. *)
Record Retry : Type := mkRetry {
  total : Z;
  backoff_factor : Z * Z;
  status_forcelist : list Z
}.

Record UniProtKBAPIConnection : Type := mkConnection {
  base_url : string;
  retries : Retry;
  format : string;
  batch_size : Z
}.

(** [__init__]: a keyword argument left out is [None] here and takes the
    default of the signature. *)
Definition init (base_url : option string) (total_retries : option Z)
    (backoff_factor : option (Z * Z)) (status_forcelist : option (list Z))
    (format : option string) (batch_size : option Z) : UniProtKBAPIConnection :=
  let status_forcelist :=
    match status_forcelist with
    | None => [500; 502; 503; 504]
    | Some l => l
    end in
  {| base_url := default "https://rest.uniprot.org/uniprotkb/search" base_url;
     retries := {| total := default 5 total_retries;
                   backoff_factor := default (1, 4) backoff_factor;
                   status_forcelist := status_forcelist |};
     format := default "tsv" format;
     batch_size := default 500 batch_size |}.

(** ** The session: [requests.Session] with the retry adapter mounted *)

(** What the server does with one request on the wire. *)
Inductive RawOutcome : Type :=
  | RawResponse (r : Response)
  | RawConnectionError.

(** A server answers the [n]-th request (counted from 0 over the life of
    the session) for a URL. *)
Definition Server : Type := nat -> string -> RawOutcome.

(** The wire: the URLs requested so far, oldest first. *)
Abbreviation Wire := (list string).

(** The adapter a fresh session has for both schemes: [Retry(0, read=False)],
    no forced statuses. *)
Definition DEFAULT_RETRIES : Retry :=
  {| total := 0; backoff_factor := (0, 1); status_forcelist := [] |}.

(** Statuses for which urllib3 honours a [Retry-After] header. *)
Definition RETRY_AFTER_STATUS_CODES : list Z := [413; 429; 503].

(** [Retry.is_retry] for a GET: a forced status, or a [Retry-After] answer
    while [total] is non-zero. *)
Definition is_retry (r : Retry) (resp : Response) : bool :=
  (bool_decide (status_code resp ∈ status_forcelist r)
   || (negb (total r =? 0)
       && headers_contains "Retry-After" (headers resp)
       && bool_decide (status_code resp ∈ RETRY_AFTER_STATUS_CODES)))%bool.

(** [Retry.increment]: one retry is spent; a counter below zero is
    exhausted ([MaxRetryError], [None] here). *)
Definition increment (r : Retry) : option Retry :=
  let t := total r - 1 in
  if t <? 0 then None
  else Some {| total := t; backoff_factor := backoff_factor r;
               status_forcelist := status_forcelist r |}.

(** [HTTPConnectionPool.urlopen] as the adapter drives it: send, and on a
    connection error or a retryable status spend a retry and send again.
    [fuel] bounds the recursion; [Z.to_nat (total r)] is always enough
    (lemma [urlopen_fuel]), so the [O] branches are never taken. *)
Fixpoint urlopen (fuel : nat) (r : Retry) (srv : Server) (url : string)
    (w : Wire) : (Exn + Response) * Wire :=
  let w' := (w ++ [url])%list in
  match srv (List.length w) url with
  | RawConnectionError =>
      match increment r with
      | None => (inl ConnectionError, w')
      | Some r' =>
          match fuel with
          | S fuel' => urlopen fuel' r' srv url w'
          | O => (inl ConnectionError, w')
          end
      end
  | RawResponse resp =>
      if is_retry r resp then
        match increment r with
        | None => (inl RetryError, w')
        | Some r' =>
            match fuel with
            | S fuel' => urlopen fuel' r' srv url w'
            | O => (inl RetryError, w')
            end
        end
      else (inr resp, w')
  end.

(** [_connect] mounts the retrying adapter on the prefix [https://] only;
    [http://] keeps the session's default adapter.  [Session.get_adapter]
    compares lower-cased prefixes and raises [InvalidSchema] when none
    fits. *)
Definition get_adapter (c : UniProtKBAPIConnection) (url : string) : option Retry :=
  if Text.startswith "https://" (Text.lower url) then Some (retries c)
  else if Text.startswith "http://" (Text.lower url) then Some DEFAULT_RETRIES
  else None.

(** [self._instance.get(url)]: the adapter for the URL's prefix sends the
    request with a fresh copy of its retry policy.  A response is handed
    back as it is; redirects are not followed in this model. *)
Definition session_get (c : UniProtKBAPIConnection) (srv : Server)
    (url : string) (w : Wire) : (Exn + Response) * Wire :=
  match get_adapter c url with
  | None => (inl InvalidSchema, w)
  | Some r => urlopen (Z.to_nat (total r)) r srv url w
  end.

(** The number of times one call of [get] may hit the wire under the
    connection's retry policy: the first attempt and [total] retries. *)
Definition max_attempts (c : UniProtKBAPIConnection) : nat :=
  S (Z.to_nat (total (retries c))).

(** The server answers the requests number [n], ..., [n + k - 1] for [url]
    with statuses of the forced list. *)
Definition forced_run (forcelist : list Z) (srv : Server) (url : string) (n k : nat) : Prop :=
  forall i, (i < k)%nat ->
    exists resp, srv (n + i)%nat url = RawResponse resp /\ status_code resp ∈ forcelist.

(** ** Exceptions as values: the error monad of a [try] block *)

#[global] Instance exn_ret : MRet (sum Exn) := fun A a => inr a.
#[global] Instance exn_bind : MBind (sum Exn) := fun A B f m =>
  match m with
  | inl e => inl e
  | inr a => f a
  end.

(** How a call of [_query] ends: with a table, with an exception raised to
    the caller, or still iterating when the fuel of the model ran out. *)
Inductive Outcome (A : Type) : Type :=
  | Returned (a : A)
  | Raised (e : Exn)
  | Running.
Arguments Returned {A} a.
Arguments Raised {A} e.
Arguments Running {A}.

(** ** get_batch and _query, over any session and any table reader *)

Section Pagination.

Context {World Row : Type}.

(** [self._instance.get]: one call, which may change the world. *)
Variable instance_get : string -> World -> (Exn + Response) * World.

(** [pd.read_csv(StringIO(text), sep='\t').to_dict('records')] *)
Variable read_csv : string -> Exn + list Row.

(** The world, the URLs handed to [self._instance.get] so far, and what
    [print] wrote. *)
Record Env : Type := mkEnv {
  world : World;
  issued : list string;
  printed : list Exn
}.

(** The body of the [try] block up to the [yield]. *)
Definition fetch (batch_url : string) (w : World)
    : (Exn + (Response * string)) * World :=
  let '(got, w') := instance_get batch_url w in
  (response ← got;
   _ ← raise_for_status response;
   total ← headers_getitem "x-total-results" (headers response);
   mret (response, total), w').

(** A generator object of [get_batch]: not started, suspended at the
    [yield] of a response, or finished. *)
Inductive Generator : Type :=
  | Created (batch_url : string)
  | Suspended (response : Response)
  | Finished.

Definition get_batch (batch_url : string) : Generator := Created batch_url.

(** The value of [batch_url] when the [while] test is reached next. *)
Definition pending (g : Generator) : option string :=
  match g with
  | Created batch_url => Some batch_url
  | Suspended response => get_next_link (headers response)
  | Finished => None
  end.

(** [next(g)]: run to the next [yield] ([Some]) or to the end of the
    generator ([None], StopIteration).  An empty string and [None] both
    fail the [while] test; an exception in the [try] block is printed
    and ends the loop. *)
Definition next (g : Generator) (e : Env)
    : option (Response * string) * Generator * Env :=
  match pending g with
  | Some (String _ _ as batch_url) =>
      let '(res, w') := fetch batch_url (world e) in
      let sent := (issued e ++ [batch_url])%list in
      match res with
      | inr (response, total) =>
          (Some (response, total), Suspended response,
           {| world := w'; issued := sent; printed := printed e |})
      | inl exn =>
          (None, Finished,
           {| world := w'; issued := sent;
              printed := (printed e ++ [exn])%list |})
      end
  | _ => (None, Finished, e)
  end.

(** The [for] loop of [_query]: each batch is parsed and appended before
    the generator is resumed; an exception of the reader leaves [_query]. *)
Fixpoint for_loop (fuel : nat) (g : Generator) (data : list Row) (e : Env)
    : Outcome (list Row) * Env :=
  match fuel with
  | O => (Running, e)
  | S fuel' =>
      match next g e with
      | (None, _, e') => (Returned data, e')
      | (Some (batch, _), g', e') =>
          match read_csv (text batch) with
          | inl exn => (Raised exn, e')
          | inr batch_data => for_loop fuel' g' (data ++ batch_data)%list e'
          end
      end
  end.

(** [list(get_batch(url))]: the generator driven to its end by a
    consumer that does nothing else; [None] when the fuel ran out first. *)
Fixpoint exhaust (fuel : nat) (g : Generator) (e : Env)
    : option (list (Response * string)) * Env :=
  match fuel with
  | O => (None, e)
  | S fuel' =>
      match next g e with
      | (None, _, e') => (Some [], e')
      | (Some y, g', e') =>
          let '(ys, e'') := exhaust fuel' g' e' in
          (cons y <$> ys, e'')
      end
  end.

(** A run of the loop that consumes the pages [ps] one after the other:
    from the [while] test with [batch_url] in world [w] to the [while]
    test with [batch_url'] in world [w']. *)
Inductive consumed : option string -> World -> list Response ->
                     option string -> World -> Prop :=
  | consumed_nil u w : consumed u w [] u w
  | consumed_cons url w r w1 ps u' w' :
      url <> EmptyString ->
      instance_get url w = (inr r, w1) ->
      raise_for_status r = inr tt ->
      headers_contains "x-total-results" (headers r) = true ->
      consumed (get_next_link (headers r)) w1 ps u' w' ->
      consumed (Some url) w (r :: ps) u' w'.

(** The loop ends at the [while] test with [batch_url]: the test fails
    ([None] or the empty string), or the [try] block raises. *)
Definition halts (batch_url : option string) (w : World) : Prop :=
  match batch_url with
  | Some (String _ _ as url) => exists exn w', fetch url w = (inl exn, w')
  | _ => True
  end.

(** [rowss] are the record lists the reader makes of the bodies of [ps]. *)
Definition parsed (ps : list Response) (rowss : list (list Row)) : Prop :=
  Forall2 (fun r rows => read_csv (text r) = inr rows) ps rowss.

End Pagination.

Arguments Env : clear implicits.
Arguments mkEnv {World} world issued printed.

(** ** URL construction in [_query] *)

(** [str(n)] for an [int]. *)
Definition str_of_int (z : Z) : string := NilZero.string_of_int (Z.to_int z).

(** [d[k] = v] on an insertion-ordered dict: a present key keeps its
    place, a new key goes last. *)
Fixpoint dict_set (k v : string) (d : list (string * string)) : list (string * string) :=
  match d with
  | [] => [(k, v)]
  | (k', v') :: d' =>
      if String.eqb k' k then (k', v) :: d' else (k', v') :: dict_set k v d'
  end.

(** [{'query': query, 'format': self.format, 'size': self.batch_size, **kwargs}];
    the values are kept as the text the f-string makes of them. *)
Definition params (c : UniProtKBAPIConnection) (query : string)
    (kwargs : list (string * string)) : list (string * string) :=
  foldl (fun d kv => dict_set (fst kv) (snd kv) d)
        [("query", query); ("format", format c); ("size", str_of_int (batch_size c))]
        kwargs.

(** [self.base_url + '?' + '&'.join([f'{k}={v}' for k, v in params.items()])] *)
Definition build_url (c : UniProtKBAPIConnection) (query : string)
    (kwargs : list (string * string)) : string :=
  base_url c +:+ "?" +:+
  Text.join "&" (map (fun kv => fst kv +:+ "=" +:+ snd kv) (params c query kwargs)).

(** [_query] on a cache miss: build the URL, drain the generator, make the
    table of the gathered records. *)
Definition _query {World Row : Type}
    (instance_get : string -> World -> (Exn + Response) * World)
    (read_csv : string -> Exn + list Row)
    (c : UniProtKBAPIConnection) (fuel : nat)
    (query : string) (kwargs : list (string * string)) (e : Env World)
    : Outcome (list Row) * Env World :=
  for_loop instance_get read_csv fuel (get_batch (build_url c query kwargs)) [] e.

(** [query]: the cached wrapper applied on a cache miss; [cache_time] only
    sets the time to live of the memo. *)
Definition query {World Row : Type}
    (instance_get : string -> World -> (Exn + Response) * World)
    (read_csv : string -> Exn + list Row)
    (c : UniProtKBAPIConnection) (fuel : nat)
    (query : string) (cache_time : Z) (kwargs : list (string * string))
    (e : Env World) : Outcome (list Row) * Env World :=
  _query instance_get read_csv c fuel query kwargs e.


(** ** Reading a URL back (the other half of the round trip)

    The source only writes URLs.  The reader below is the inverse the
    specification speaks of, for the writer as it is: the query string
    is what follows the first [?], parameters are separated by [&], a
    name ends at the first [=], nothing is percent-decoded (nothing was
    percent-encoded), and a name that occurs twice reads as its first
    occurrence. *)

Definition url_query_string (url : string) : string :=
  match Text.partition "?" url with
  | Some (_, qs) => qs
  | None => EmptyString
  end.

Definition parse_qsl (qs : string) : list (string * string) :=
  map (fun p => match Text.partition "=" p with
                | Some kv => kv
                | None => (p, EmptyString)
                end)
      (Text.split "&" qs).

Fixpoint dict_get (k : string) (d : list (string * string)) : option string :=
  match d with
  | [] => None
  | (k', v) :: d' => if String.eqb k' k then Some v else dict_get k d'
  end.




(** ** The table reader

    [pd.read_csv(StringIO(text), sep=TAB).to_dict('records')] on plain
    tab-separated text: blank lines are skipped; text without any line
    left raises [EmptyDataError]; the first line names the columns; a
    line with more fields than columns raises [ParserError]; a short
    line is padded with missing values, and an empty cell is a missing
    value ([None]).  Cells are kept as text. *)

Abbreviation Record_ := (list (string * option string)).

Definition cell (f : string) : option string :=
  match f with
  | EmptyString => None
  | _ => Some f
  end.

Fixpoint to_record (columns fields : list string) : Record_ :=
  match columns with
  | [] => []
  | c :: columns' =>
      match fields with
      | [] => (c, None) :: to_record columns' []
      | f :: fields' => (c, cell f) :: to_record columns' fields'
      end
  end.

Definition nonblank (l : string) : bool :=
  match l with
  | EmptyString => false
  | _ => true
  end.

Definition read_line (columns : list string) (line : string) : Exn + Record_ :=
  let fields := Text.split Text.tab line in
  if (List.length columns <? List.length fields)%nat then inl ParserError
  else inr (to_record columns fields).

Definition read_csv (text : string) : Exn + list Record_ :=
  match List.filter nonblank (Text.split Text.newline text) with
  | [] => inl EmptyDataError
  | header :: lines => mapM (read_line (Text.split Text.tab header)) lines
  end.

(** ** Concrete servers, used to run the model *)

Module Demo.

Definition conn : UniProtKBAPIConnection := init None None None None None None.

Definition TAB : string := String Text.tab EmptyString.
Definition NL : string := String Text.newline EmptyString.

(** A [Link] header value pointing at [url]. *)
Definition next_link (url : string) : string := "<" +:+ url +:+ REL_NEXT.

Definition ok_page (total : string) (link : option string) (body : string) : Response :=
  {| status_code := 200;
     headers := headers_of (("X-Total-Results", total) ::
                            match link with
                            | Some u => [("Link", next_link u)]
                            | None => []
                            end);
     text := body |}.

Definition status_page (code : Z) : Response :=
  {| status_code := code; headers := ∅; text := EmptyString |}.

Definition url1 : string := build_url conn "organism_id:10090" [].
Definition url2 : string := "https://rest.uniprot.org/uniprotkb/search?cursor=p2".
Definition url3 : string := "https://rest.uniprot.org/uniprotkb/search?cursor=p3".

Definition body1 : string := "Entry" +:+ TAB +:+ "Mass" +:+ NL +:+
                             "P1" +:+ TAB +:+ "10" +:+ NL +:+
                             "P2" +:+ TAB +:+ "20" +:+ NL.
Definition body2 : string := "Entry" +:+ TAB +:+ "Mass" +:+ NL +:+
                             "P3" +:+ TAB +:+ "30" +:+ NL.
Definition body3 : string := "Entry" +:+ TAB +:+ "Mass" +:+ NL +:+
                             "P4" +:+ TAB +:+ "40" +:+ NL.

Definition page1 : Response := ok_page "4" (Some url2) body1.
Definition page2 : Response := ok_page "4" (Some url3) body2.
Definition page3 : Response := ok_page "4" None body3.

(** Three pages chained by next links. *)
Definition three_pages : Server := fun _ url =>
  RawResponse (if String.eqb url url1 then page1
               else if String.eqb url url2 then page2
               else if String.eqb url url3 then page3
               else status_page 404).

Definition env0 : Env Wire := mkEnv [] [] [].

(** Every request is answered 503 Service Unavailable. *)
Definition always_503 : Server := fun _ _ => RawResponse (status_page 503).

(** The first [k] requests are answered 503, the later ones with the
    last page. *)
Definition flaky (k : nat) : Server := fun n _ =>
  RawResponse (if (n <? k)%nat then status_page 503 else page3).

(** Page 2 of 3 is answered 404 Not Found. *)
Definition error_on_page2 : Server := fun _ url =>
  RawResponse (if String.eqb url url1 then page1
               else if String.eqb url url2 then status_page 404
               else if String.eqb url url3 then page3
               else status_page 404).

(** A 200 answer with rows and a next link, but without the
    [x-total-results] header. *)
Definition page_without_total (link : option string) (body : string) : Response :=
  {| status_code := 200;
     headers := headers_of match link with
                           | Some u => [("Link", next_link u)]
                           | None => []
                           end;
     text := body |}.

Definition total_missing_on_page2 : Server := fun _ url =>
  RawResponse (if String.eqb url url1 then page1
               else if String.eqb url url2 then page_without_total (Some url3) body2
               else if String.eqb url url3 then page3
               else status_page 404).

(** A single page, successful, without the [x-total-results] header. *)
Definition single_page_without_total : Server := fun _ _ =>
  RawResponse (page_without_total None body1).


(** Every answer is a page that links to [url2]. *)
Definition endless : Server := fun _ _ => RawResponse (ok_page "1" (Some url2) body2).

Definition rows1 : list Record_ :=
  [[("Entry", Some "P1"); ("Mass", Some "10")];
   [("Entry", Some "P2"); ("Mass", Some "20")]].
Definition rows2 : list Record_ := [[("Entry", Some "P3"); ("Mass", Some "30")]].
Definition rows3 : list Record_ := [[("Entry", Some "P4"); ("Mass", Some "40")]].

(** The same client pointed at a plain-HTTP base URL. *)
Definition conn_http : UniProtKBAPIConnection :=
  init (Some "http://rest.uniprot.org/uniprotkb/search") None None None None None.

Definition url_http : string := build_url conn_http "organism_id:10090" [].

End Demo.

(** ** Further definitions used by the statements below *)

(** [lit in s]: the literal occurs somewhere in [s]. *)
Fixpoint occurs (lit s : string) : bool :=
  (Text.startswith lit s ||
   match s with
   | EmptyString => false
   | String _ s' => occurs lit s'
   end)%bool.

(** [f'{k}={v}'] *)
Definition render_param (kv : string * string) : string := fst kv +:+ "=" +:+ snd kv.

(** The three entries the dict literal of [_query] starts from. *)
Definition base_params (c : UniProtKBAPIConnection) (query : string)
    : list (string * string) :=
  [("query", query); ("format", format c); ("size", str_of_int (batch_size c))].

(** A name and a value that the writer of the URL leaves readable: no
    [&] in either, no [=] in the name. *)
Definition plain_param (kv : string * string) : Prop :=
  Text.contains "&" (fst kv) = false /\ Text.contains "=" (fst kv) = false /\
  Text.contains "&" (snd kv) = false.

(** The server fails the requests number [n], ..., [n + k - 1] for [url]:
    each with a connection error or with a status of the forced list. *)
Definition failing_run (forcelist : list Z) (srv : Server) (url : string) (n k : nat) : Prop :=
  forall i, (i < k)%nat ->
    srv (n + i)%nat url = RawConnectionError \/
    exists resp, srv (n + i)%nat url = RawResponse resp /\ status_code resp ∈ forcelist.

(** Further servers to run the model on. *)
Module Scenario.

(** No request ever reaches the server. *)
Definition unreachable : Server := fun _ _ => RawConnectionError.

(** The connection is lost [k] times, then the last page is served. *)
Definition drops_then_serves (k : nat) : Server := fun n _ =>
  if (n <? k)%nat then RawConnectionError else RawResponse Demo.page3.


End Scenario.

(** ** The demo application, [streamlit_app.py] *)

Module App.

Definition FIELDS : list (string * string) :=
  [("Entry", "accession");
   ("Entry Name", "id");
   ("Gene Names", "gene_names");
   ("Gene Names (primary)", "gene_primary");
   ("Gene Names (synonym)", "gene_synonym");
   ("Gene Names (ordered locus)", "gene_oln");
   ("Gene Names (ORF)", "gene_orf");
   ("Organism", "organism_name");
   ("Organism ID", "organism_id");
   ("Protein names", "protein_name");
   ("Proteomes", "xref_proteomes");
   ("Taxonomic lineage", "lineage");
   ("Taxonomic lineage (IDs)", "lineage_ids");
   ("Virus hosts", "virus_hosts")].

Definition ORGANISM_IDS : list (string * string) :=
  [("Mouse", "10090"); ("Rat", "10116")].

(** [d[k]] on a dict literal. *)
Definition getitem (d : list (string * string)) (k : string) : Exn + string :=
  match dict_get k d with
  | Some v => inr v
  | None => inl (KeyError k)
  end.

(** [UniProtKBAPIConnection("UniProt Connection")]: every keyword left out. *)
Definition uniprot_conn : UniProtKBAPIConnection := init None None None None None None.

Definition is_reviewed : bool := true.

(** [str(b).lower()] *)
Definition str_lower_of_bool (b : bool) : string :=
  Text.lower (if b then "True" else "False").

(** [','.join(FIELDS[field] for field in selected_fields)] *)
Definition fields (selected_fields : list string) : Exn + string :=
  codes ← mapM (getitem FIELDS) selected_fields;
  mret (Text.join "," codes).

(** The boolean expression of the f-string, up to the [&]. *)
Definition expression (organism_id : string) (min_mass max_mass : Z) : string :=
  "(reviewed:" +:+ str_lower_of_bool is_reviewed +:+ ") AND (organism_id:" +:+ organism_id
  +:+ ") AND (mass:[" +:+ str_of_int min_mass +:+ " TO " +:+ str_of_int max_mass +:+ "])".

(** The script from the select box to the f-string [query]: the chosen
    organism label is looked up, the chosen field labels are mapped to
    their codes, and the query text is put together. *)
Definition search_query (organism : string) (selected_fields : list string)
    (min_mass max_mass : Z) : Exn + string :=
  organism_id ← getitem ORGANISM_IDS organism;
  fields ← fields selected_fields;
  mret (expression organism_id min_mass max_mass +:+ "&fields=" +:+ fields).

(** What the page shows after the button: the result count and the table,
    or the error box. *)
Inductive Shown (Row : Type) : Type :=
  | Results (count : nat) (df : list Row)
  | Error (e : Exn).
Arguments Results {Row} count df.
Arguments Error {Row} e.

(** The body of [if st.button('Search'):] for a query text; [None] while
    the model of [query] is still running. *)
Definition on_search {World Row : Type}
    (instance_get : string -> World -> (Exn + Response) * World)
    (read_csv : string -> Exn + list Row)
    (uniprot_conn : UniProtKBAPIConnection) (fuel : nat) (query_text : string)
    (e : Env World) : option (Shown Row) * Env World :=
  match query instance_get read_csv uniprot_conn fuel query_text 3600 [] e with
  | (Returned df, e') => (Some (Results (List.length df) df), e')
  | (Raised exn, e') => (Some (Error exn), e')
  | (Running, e') => (None, e')
  end.

End App.

(** * Theorems *)

(** ** Text *)

Lemma append_nil_r (s : string) : s +:+ EmptyString = s.
Proof. induction s as [|a s IH]; simpl; [reflexivity | now rewrite IH]. Qed.

Lemma append_assoc (a b c : string) : (a +:+ b) +:+ c = a +:+ (b +:+ c).
Proof. induction a as [|x a IH]; simpl; [reflexivity | now rewrite IH]. Qed.

Lemma length_append (a b : string) :
  String.length (a +:+ b) = (String.length a + String.length b)%nat.
Proof. induction a as [|x a IH]; simpl; [reflexivity | now rewrite IH]. Qed.

Lemma append_same_length (a a' b b' : string) :
  a +:+ b = a' +:+ b' -> String.length a = String.length a' -> a = a'.
Proof.
  revert a'. induction a as [|x a IH]; intros [|x' a'] E L; simpl in *;
    try discriminate; [reflexivity |].
  injection E as -> E. f_equal. apply (IH a'); [exact E | lia].
Qed.

Lemma startswith_spec (p s : string) :
  Text.startswith p s = true <-> exists rest, s = p +:+ rest.
Proof.
  revert s. induction p as [|a p IH]; intros s; simpl.
  - split; [intros _; now exists s | reflexivity].
  - destruct s as [|b s].
    + split; [discriminate | intros [rest E]; discriminate].
    + rewrite andb_true_iff, IH. split.
      * intros [Hab [rest ->]]. apply Ascii.eqb_eq in Hab as ->. now exists rest.
      * intros [rest E]. injection E as -> ->. split; [apply Ascii.eqb_refl | now exists rest].
Qed.

Lemma startswith_append (p rest : string) : Text.startswith p (p +:+ rest) = true.
Proof. apply startswith_spec. now exists rest. Qed.

(** ** The link pattern *)

Lemma match_dots_then_sound (lit s u : string) :
  match_dots_then lit s = Some u -> dots_form lit s u.
Proof.
  revert u. induction s as [|c s IH]; intros u; simpl.
  - destruct lit; simpl; [|discriminate]. intros [= <-]. split; [reflexivity | now exists EmptyString].
  - assert (Hhere : (if Text.startswith lit (String c s) then Some EmptyString else None) = Some u ->
                    dots_form lit (String c s) u).
    { destruct (Text.startswith lit (String c s)) eqn:Hp; [|discriminate].
      intros [= <-]. apply startswith_spec in Hp as [rest Hp].
      split; [reflexivity | now exists rest]. }
    destruct (Ascii.eqb c Text.newline) eqn:Hc; [exact Hhere|].
    destruct (match_dots_then lit s) as [u0|] eqn:Hm; [|exact Hhere].
    intros [= <-]. destruct (IH u0 eq_refl) as [Hn [rest ->]].
    split; [simpl; now rewrite Hc | now exists rest].
Qed.

Lemma match_dots_then_complete (lit s u : string) :
  dots_form lit s u -> is_Some (match_dots_then lit s).
Proof.
  revert s. induction u as [|c u IH]; intros s [Hn [rest ->]].
  - simpl. destruct (lit +:+ rest) as [|d t] eqn:E.
    + simpl. destruct lit; [eauto | discriminate].
    + simpl. rewrite <- E, startswith_append.
      destruct (Ascii.eqb d Text.newline); [eauto|].
      destruct (match_dots_then lit t); eauto.
  - simpl in Hn. apply orb_false_iff in Hn as [Hc Hn]. simpl. rewrite Hc.
    destruct (IH (u +:+ lit +:+ rest)) as [u0 ->]; [split; [exact Hn | now exists rest] | eauto].
Qed.

Lemma match_dots_then_longest (lit s u : string) :
  match_dots_then lit s = Some u ->
  forall u', dots_form lit s u' -> (String.length u' <= String.length u)%nat.
Proof.
  revert u. induction s as [|c s IH]; intros u Hm u' [Hn [rest E]].
  - destruct u'; [simpl; lia | discriminate].
  - destruct u' as [|c' u']; [simpl; lia|].
    simpl in E. injection E as <- E. simpl in Hn.
    apply orb_false_iff in Hn as [Hc Hn]. simpl in Hm. rewrite Hc in Hm.
    assert (Hd : dots_form lit s u') by (split; [exact Hn | now exists rest]).
    destruct (match_dots_then_complete _ _ _ Hd) as [u0 Hm0]. rewrite Hm0 in Hm.
    injection Hm as <-. simpl. apply le_n_S. now apply (IH u0).
Qed.

Lemma link_form_dots (value url : string) :
  link_form value url <->
  exists c u s, url = String c u /\ value = String "<" (String c s) /\
                Ascii.eqb c Text.newline = false /\ dots_form REL_NEXT s u.
Proof.
  split.
  - intros (Hne & Hn & rest & ->). destruct url as [|c u]; [congruence|].
    simpl in Hn. apply orb_false_iff in Hn as [Hc Hn].
    exists c, u, (u +:+ REL_NEXT +:+ rest). repeat split; try assumption. now exists rest.
  - intros (c & u & s & -> & -> & Hc & Hn & rest & ->).
    split; [discriminate|]. split; [simpl; now rewrite Hc, Hn | now exists rest].
Qed.

Lemma LINK_REGEX_match_sound (value url : string) :
  LINK_REGEX_match value = Some url -> link_pattern value url.
Proof.
  unfold LINK_REGEX_match. destruct value as [|a [|c s]]; try discriminate.
  - destruct a as [[] [] [] [] [] [] [] []]; discriminate.
  - destruct (Ascii.eqb_spec a "<") as [->|Ha].
    2:{ destruct a as [[] [] [] [] [] [] [] []]; try discriminate. now contradiction Ha. }
    destruct (Ascii.eqb c Text.newline) eqn:Hc; [discriminate|].
    destruct (match_dots_then REL_NEXT s) as [u|] eqn:Hm; [|discriminate].
    intros [= <-]. split.
    + apply link_form_dots. exists c, u, s. repeat split; try assumption;
        apply (match_dots_then_sound _ _ _ Hm).
    + intros url' Hf. apply link_form_dots in Hf as (c' & u' & s' & -> & E & _ & Hd).
      injection E as <- <-. simpl. apply le_n_S.
      apply (match_dots_then_longest _ _ _ Hm _ Hd).
Qed.

Lemma LINK_REGEX_match_complete (value url : string) :
  link_form value url -> is_Some (LINK_REGEX_match value).
Proof.
  intros Hf. apply link_form_dots in Hf as (c & u & s & -> & -> & Hc & Hd).
  unfold LINK_REGEX_match. rewrite Hc.
  destruct (match_dots_then_complete _ _ _ Hd) as [u0 ->]. simpl. eauto.
Qed.

Lemma link_pattern_functional (value u1 u2 : string) :
  link_pattern value u1 -> link_pattern value u2 -> u1 = u2.
Proof.
  intros [F1 M1] [F2 M2]. pose proof (M1 _ F2). pose proof (M2 _ F1).
  destruct F1 as (_ & _ & r1 & E1), F2 as (_ & _ & r2 & E2).
  rewrite E1 in E2. simpl in E2. injection E2 as E2.
  apply (append_same_length _ _ _ _ E2). lia.
Qed.

Lemma LINK_REGEX_match_iff (value url : string) :
  LINK_REGEX_match value = Some url <-> link_pattern value url.
Proof.
  split; [apply LINK_REGEX_match_sound|]. intros Hp.
  destruct (LINK_REGEX_match_complete value url (proj1 Hp)) as [u0 Hu0].
  rewrite Hu0. f_equal.
  apply (link_pattern_functional value); [now apply LINK_REGEX_match_sound | exact Hp].
Qed.

Lemma link_pattern_exact (url : string) :
  url <> EmptyString -> Text.contains Text.newline url = false ->
  link_pattern ("<" +:+ url +:+ REL_NEXT) url.
Proof.
  intros Hne Hn. split.
  - split; [exact Hne|]. split; [exact Hn|]. exists EmptyString. now rewrite append_nil_r.
  - intros url' (_ & _ & rest & E). apply (f_equal String.length) in E.
    simpl in E. rewrite !length_append in E. unfold REL_NEXT in E. simpl in E. lia.
Qed.

Lemma get_next_link_value (h : Headers) (value : string) :
  headers_getitem "Link" h = inr value -> get_next_link h = LINK_REGEX_match value.
Proof.
  unfold get_next_link, headers_getitem, headers_contains.
  destruct (h !! Text.lower "Link") as [v|] eqn:E; [|discriminate].
  intros [= ->]. rewrite bool_decide_eq_true_2; [reflexivity | eauto].
Qed.

(** C5. Next-link extraction.  Without a [Link] header the result is
    nothing.  With a [Link] header of value [v], the result is [URL]
    exactly when [v] matches the pattern [<URL>; rel="next"] (from its
    start, [URL] non-empty and on one line, the longest such [URL] when
    there are several, as the regular expression finds it); in
    particular a value that is exactly [<URL>; rel="next"] yields [URL];
    and the result is nothing exactly when [v] does not match. *)
Theorem get_next_link_pattern (h : Headers) :
  (headers_contains "Link" h = false -> get_next_link h = None) /\
  (forall value, headers_getitem "Link" h = inr value ->
     (forall url, get_next_link h = Some url <-> link_pattern value url) /\
     (forall url, url <> EmptyString -> Text.contains Text.newline url = false ->
                  value = "<" +:+ url +:+ REL_NEXT -> get_next_link h = Some url) /\
     (get_next_link h = None <-> forall url, ~ link_form value url)).
Proof.
  split.
  - intros Hc. unfold get_next_link. now rewrite Hc.
  - intros value Hv. rewrite (get_next_link_value h value Hv). split; [|split].
    + intros url. apply LINK_REGEX_match_iff.
    + intros url Hne Hn ->. apply LINK_REGEX_match_iff. now apply link_pattern_exact.
    + split.
      * intros HN url Hf. destruct (LINK_REGEX_match_complete _ _ Hf) as [u Hu]. congruence.
      * intros HN. destruct (LINK_REGEX_match value) as [u|] eqn:E; [|reflexivity].
        exfalso. apply (HN u). now apply LINK_REGEX_match_sound in E as [Hf _].
Qed.

Lemma get_next_link_pattern_witness :
  get_next_link (headers Demo.page1) = Some Demo.url2 /\
  get_next_link (headers Demo.page3) = None.
Proof.
  split.
  - apply (proj1 (proj2 (proj2 (get_next_link_pattern (headers Demo.page1))
             (Demo.next_link Demo.url2) eq_refl)) Demo.url2);
      [discriminate | reflexivity | reflexivity].
  - apply (proj1 (get_next_link_pattern (headers Demo.page3))). reflexivity.
Defined.

(** ** The retrying transport *)

Lemma increment_Some (r r' : Retry) :
  increment r = Some r' ->
  Z.to_nat (total r) = S (Z.to_nat (total r')) /\
  status_forcelist r' = status_forcelist r.
Proof.
  unfold increment. destruct (total r - 1 <? 0) eqn:E; [discriminate|].
  intros [= <-]. simpl. apply Z.ltb_ge in E. split; [lia | reflexivity].
Qed.

Lemma increment_None (r : Retry) :
  increment r = None <-> Z.to_nat (total r) = O.
Proof.
  unfold increment. destruct (total r - 1 <? 0) eqn:E.
  - apply Z.ltb_lt in E. split; [lia | reflexivity].
  - apply Z.ltb_ge in E. split; [discriminate | lia].
Qed.

(** Fuel beyond the retry counter changes nothing: the counter runs out
    first. *)
Lemma urlopen_fuel (fuel : nat) (r : Retry) (srv : Server) (url : string) (w : Wire) :
  (Z.to_nat (total r) <= fuel)%nat ->
  urlopen fuel r srv url w = urlopen (Z.to_nat (total r)) r srv url w.
Proof.
  revert r w. induction fuel as [|fuel IH]; intros r w Hle.
  - now replace (Z.to_nat (total r)) with O by lia.
  - destruct (increment r) as [r'|] eqn:Hi.
    + destruct (increment_Some _ _ Hi) as [Ht _]. rewrite Ht. simpl. rewrite Hi.
      destruct (srv (List.length w) url) as [resp|];
        [destruct (is_retry r resp)|]; try reflexivity; apply IH; lia.
    + pose proof (proj1 (increment_None r) Hi) as Ht. rewrite Ht. simpl. rewrite Hi.
      reflexivity.
Qed.

(** One call never hits the wire more often than once plus the retry
    counter. *)
Lemma urlopen_wire_bound (fuel : nat) (r : Retry) (srv : Server) (url : string) (w : Wire) :
  (List.length (snd (urlopen fuel r srv url w))
   <= List.length w + S (Z.to_nat (total r)))%nat.
Proof.
  revert r w. induction fuel as [|fuel IH]; intros r w; simpl.
  - destruct (srv (List.length w) url) as [resp|];
      [destruct (is_retry r resp)|]; try destruct (increment r); simpl;
      rewrite length_app; simpl; lia.
  - destruct (srv (List.length w) url) as [resp|];
      [destruct (is_retry r resp)|];
      try (simpl; rewrite length_app; simpl; lia);
      (destruct (increment r) as [r'|] eqn:Hi;
       [ destruct (increment_Some _ _ Hi) as [Ht _];
         specialize (IH r' (w ++ [url])%list); rewrite length_app in IH; simpl in IH; lia
       | simpl; rewrite length_app; simpl; lia ]).
Qed.

Lemma is_retry_forced (r : Retry) (resp : Response) :
  status_code resp ∈ status_forcelist r -> is_retry r resp = true.
Proof. intros H. unfold is_retry. now rewrite bool_decide_eq_true_2. Qed.

Lemma is_retry_success (r : Retry) (resp : Response) :
  status_code resp ∉ status_forcelist r -> 200 <= status_code resp < 300 ->
  is_retry r resp = false.
Proof.
  intros H Hs. unfold is_retry. rewrite bool_decide_eq_false_2 by exact H.
  rewrite (bool_decide_eq_false_2 (status_code resp ∈ RETRY_AFTER_STATUS_CODES)).
  - now rewrite andb_false_r.
  - unfold RETRY_AFTER_STATUS_CODES. rewrite !elem_of_cons, elem_of_nil. lia.
Qed.

Lemma forced_run_tail (forcelist : list Z) (srv : Server) (url : string) (n k : nat) :
  forced_run forcelist srv url n (S k) -> forced_run forcelist srv url (S n) k.
Proof.
  intros H i Hi. destruct (H (S i)) as [resp [E Hs]]; [lia|].
  exists resp. split; [|exact Hs]. now replace (S n + i)%nat with (n + S i)%nat by lia.
Qed.


Lemma urlopen_recovers (srv : Server) (url : string) (resp : Response)
    (k n : nat) (r : Retry) (w : Wire) :
  Z.to_nat (total r) = n -> (k <= n)%nat ->
  forced_run (status_forcelist r) srv url (List.length w) k ->
  srv (List.length w + k)%nat url = RawResponse resp ->
  status_code resp ∉ status_forcelist r -> 200 <= status_code resp < 300 ->
  urlopen n r srv url w = (inr resp, (w ++ replicate (S k) url)%list).
Proof.
  revert n r w. induction k as [|k IH]; intros n r w Ht Hk Hrun Hok Hnf H2.
  - rewrite Nat.add_0_r in Hok.
    destruct n; simpl; rewrite Hok, (is_retry_success _ _ Hnf H2); reflexivity.
  - destruct n as [|n]; [lia|].
    destruct (Hrun O) as [bad [E Hs]]; [lia|]. rewrite Nat.add_0_r in E.
    simpl. rewrite E, (is_retry_forced _ _ Hs).
    destruct (increment r) as [r'|] eqn:Hi.
    2:{ apply increment_None in Hi. lia. }
    destruct (increment_Some _ _ Hi) as [Ht' Hf].
    rewrite (IH n r' (w ++ [url])%list).
    + now rewrite <- app_assoc.
    + lia.
    + lia.
    + rewrite Hf, length_app. simpl. rewrite Nat.add_1_r. now apply forced_run_tail.
    + rewrite length_app. simpl. now replace (List.length w + 1 + k)%nat with (List.length w + S k)%nat by lia.
    + now rewrite Hf.
    + exact H2.
Qed.

Lemma fetch_raises_for_status {World : Type}
    (get : string -> World -> (Exn + Response) * World)
    (url : string) (w w' : World) (resp : Response) :
  get url w = (inr resp, w') -> 400 <= status_code resp < 600 ->
  fetch get url w = (inl (HTTPError (status_code resp)), w').
Proof.
  intros Hg Hs. unfold fetch. rewrite Hg. simpl. unfold raise_for_status.
  replace (400 <=? status_code resp) with true by (symmetry; apply Z.leb_le; lia).
  replace (status_code resp <? 600) with true by (symmetry; apply Z.ltb_lt; lia).
  reflexivity.
Qed.



(** C7, as the code has it.  Over https, when the server answers a URL
    with a retryable status [k] times, [k] smaller than [max_attempts],
    and then with a 2xx status outside the forced list, the call of [get]
    returns that response and exactly [k + 1] requests for the URL went
    over the wire; the pagination loop sees one call. *)
Theorem retry_then_success_https
    (c : UniProtKBAPIConnection) (srv : Server) (url : string) (w : Wire)
    (k : nat) (resp : Response) :
  Text.startswith "https://" (Text.lower url) = true ->
  (k < max_attempts c)%nat ->
  forced_run (status_forcelist (retries c)) srv url (List.length w) k ->
  srv (List.length w + k)%nat url = RawResponse resp ->
  status_code resp ∉ status_forcelist (retries c) ->
  200 <= status_code resp < 300 ->
  session_get c srv url w = (inr resp, (w ++ replicate (S k) url)%list).
Proof.
  intros Hs Hk Hrun Hok Hnf H2. unfold session_get, get_adapter. rewrite Hs.
  apply urlopen_recovers; try assumption; [reflexivity | unfold max_attempts in Hk; lia].
Qed.

Lemma retry_then_success_https_witness :
  session_get Demo.conn (Demo.flaky 5) Demo.url1 []
  = (inr Demo.page3, ([] ++ replicate 6 Demo.url1)%list).
Proof.
  apply (retry_then_success_https Demo.conn (Demo.flaky 5) Demo.url1 [] 5 Demo.page3).
  - reflexivity.
  - vm_compute. lia.
  - intros i Hi. exists (Demo.status_page 503). split.
    + unfold Demo.flaky. simpl. destruct (Nat.ltb_spec i 5); [reflexivity | lia].
    + apply (bool_decide_unpack _). vm_compute. exact I.
  - reflexivity.
  - apply (bool_decide_unpack _). vm_compute. exact I.
  - simpl. lia.
Defined.

(** C7 fails as stated: over plain http the session keeps its default
    adapter, so one 503 followed by a page that would succeed is a failed
    fetch after a single request. *)
Lemma retry_then_success_http_counterexample :
  (1 < max_attempts Demo.conn_http)%nat /\
  forced_run (status_forcelist (retries Demo.conn_http)) (Demo.flaky 1) Demo.url_http 0 1 /\
  Demo.flaky 1 1%nat Demo.url_http = RawResponse Demo.page3 /\
  status_code Demo.page3 = 200 /\
  session_get Demo.conn_http (Demo.flaky 1) Demo.url_http []
    = (inr (Demo.status_page 503), [Demo.url_http]) /\
  fetch (session_get Demo.conn_http (Demo.flaky 1)) Demo.url_http []
    = (inl (HTTPError 503), [Demo.url_http]).
Proof.
  split; [vm_compute; lia|]. split.
  - intros i Hi. exists (Demo.status_page 503). split.
    + unfold Demo.flaky. simpl. destruct (Nat.ltb_spec i 1); [reflexivity | lia].
    + apply (bool_decide_unpack _). vm_compute. exact I.
  - repeat split; reflexivity.
Qed.

(** ** The pagination loop *)

Lemma LINK_REGEX_match_nonempty (value url : string) :
  LINK_REGEX_match value = Some url -> url <> EmptyString.
Proof.
  intros H. apply LINK_REGEX_match_sound in H as [[Hne _] _]. exact Hne.
Qed.

Lemma get_next_link_nonempty (h : Headers) (url : string) :
  get_next_link h = Some url -> url <> EmptyString.
Proof.
  unfold get_next_link. destruct (headers_contains "Link" h); [|discriminate].
  destruct (headers_getitem "Link" h) as [|value]; [discriminate|].
  apply LINK_REGEX_match_nonempty.
Qed.

Section PaginationFacts.

Context {World Row : Type}.
Variable instance_get : string -> World -> (Exn + Response) * World.
Variable read_csv : string -> Exn + list Row.


(** The [try] block reaches the [yield] exactly when the call returns a
    response, the status is no error, and the total is in the headers. *)
Lemma fetch_yields (url : string) (w w' : World) (r : Response) (t : string) :
  fetch instance_get url w = (inr (r, t), w') <->
  instance_get url w = (inr r, w') /\ raise_for_status r = inr tt /\
  headers_getitem "x-total-results" (headers r) = inr t.
Proof.
  unfold fetch. destruct (instance_get url w) as [[exn|r0] w0]; simpl.
  - split; [discriminate | intros [[=] _]].
  - destruct (raise_for_status r0) as [exn|[]] eqn:Hr; simpl.
    + split; [discriminate|]. intros [[= <- <-] [Hr' _]]. congruence.
    + destruct (headers_getitem "x-total-results" (headers r0)) as [exn|t0] eqn:Ht; simpl.
      * split; [discriminate | intros [[= <- <-] [_ E]]]. rewrite E in Ht. discriminate.
      * split.
        -- intros [= <- <- <-]. auto.
        -- intros [[= <- <-] [_ E]]. rewrite E in Ht. now injection Ht as ->.
Qed.

Lemma headers_getitem_Some (name : string) (h : Headers) :
  headers_contains name h = true <-> exists v, headers_getitem name h = inr v.
Proof.
  unfold headers_contains, headers_getitem. rewrite bool_decide_eq_true.
  destruct (h !! Text.lower name) as [v|]; split.
  - intros _. now exists v.
  - intros _. eauto.
  - intros [v [=]].
  - intros [v [=]].
Qed.

Lemma headers_getitem_None (name : string) (h : Headers) :
  headers_contains name h = false -> headers_getitem name h = inl (KeyError name).
Proof.
  unfold headers_contains, headers_getitem. rewrite bool_decide_eq_false.
  destruct (h !! Text.lower name) as [v|]; [|reflexivity].
  intros H. exfalso. apply H. eauto.
Qed.

Lemma next_stop (g : Generator) (e : Env World) :
  pending g = None -> next instance_get g e = (None, Finished, e).
Proof. intros H. unfold next. now rewrite H. Qed.

Lemma next_yield (g : Generator) (e : Env World) (url : string)
    (r : Response) (t : string) (w' : World) :
  pending g = Some url -> url <> EmptyString ->
  fetch instance_get url (world e) = (inr (r, t), w') ->
  next instance_get g e = (Some (r, t), Suspended r,
              mkEnv w' (issued e ++ [url])%list (printed e)).
Proof.
  intros Hp Hne Hf. unfold next. rewrite Hp.
  destruct url as [|a url]; [congruence|]. now rewrite Hf.
Qed.

Lemma next_raise (g : Generator) (e : Env World) (url : string)
    (exn : Exn) (w' : World) :
  pending g = Some url -> url <> EmptyString ->
  fetch instance_get url (world e) = (inl exn, w') ->
  next instance_get g e = (None, Finished,
              mkEnv w' (issued e ++ [url])%list (printed e ++ [exn])%list).
Proof.
  intros Hp Hne Hf. unfold next. rewrite Hp.
  destruct url as [|a url]; [congruence|]. now rewrite Hf.
Qed.

(** A consumed run never leaves the loop at an empty URL. *)
Lemma consumed_nonempty (u : option string) (w : World) (ps : list Response)
    (u' : option string) (w' : World) :
  consumed instance_get u w ps u' w' -> u <> Some EmptyString -> u' <> Some EmptyString.
Proof.
  induction 1 as [|url w r w1 ps u' w' Hne Hg Hr Ht Hc IH]; [auto|].
  intros _. apply IH. intros E. now apply get_next_link_nonempty in E.
Qed.

(** The [for] loop over a consumed run: the records of its pages are
    appended in order, one call of [get] per page, nothing printed. *)
Lemma for_loop_consumed (u : option string) (w : World) (ps : list Response)
    (u' : option string) (w' : World) :
  consumed instance_get u w ps u' w' ->
  forall (rowss : list (list Row)), parsed read_csv ps rowss ->
  forall (fuel : nat) (g : Generator) (data : list Row) (e : Env World),
    pending g = u -> world e = w ->
    exists g' urls,
      pending g' = u' /\ List.length urls = List.length ps /\
      for_loop instance_get read_csv (List.length ps + fuel) g data e
      = for_loop instance_get read_csv fuel g' (data ++ concat rowss)%list
                 (mkEnv w' (issued e ++ urls)%list (printed e)).
Proof.
  induction 1 as [u w|url w r w1 ps u' w' Hne Hg Hr Ht Hc IH];
    intros rowss Hp fuel g data e Hg0 Hw.
  - apply Forall2_nil_inv_l in Hp as ->. exists g, []. simpl.
    rewrite !app_nil_r. destruct e; simpl in *; subst. auto.
  - apply Forall2_cons_inv_l in Hp as (rows & rowss' & Hrows & Hp & ->).
    destruct (proj1 (headers_getitem_Some _ _) Ht) as [t Hget].
    assert (Hf : fetch instance_get url (world e) = (inr (r, t), w1))
      by (rewrite Hw; apply fetch_yields; auto).
    destruct (IH rowss' Hp fuel (Suspended r) (data ++ rows)%list
                (mkEnv w1 (issued e ++ [url])%list (printed e)) eq_refl eq_refl)
      as (g' & urls & Hg' & Hlen & Hrun).
    exists g', (url :: urls). split; [exact Hg'|]. split; [simpl; now rewrite Hlen|].
    change (List.length (r :: ps) + fuel)%nat with (S (List.length ps + fuel)).
    cbn [for_loop]. rewrite (next_yield g e url r t w1 Hg0 Hne Hf), Hrows.
    rewrite Hrun. simpl. now rewrite <- !app_assoc.
Qed.

(** The same run seen by a consumer that only iterates. *)
Lemma exhaust_consumed (u : option string) (w : World) (ps : list Response)
    (u' : option string) (w' : World) :
  consumed instance_get u w ps u' w' ->
  forall (fuel : nat) (g : Generator) (e : Env World),
    pending g = u -> world e = w ->
    exists g' e', pending g' = u' /\ world e' = w' /\
      (is_Some (fst (exhaust instance_get fuel g' e')) ->
       is_Some (fst (exhaust instance_get (List.length ps + fuel) g e))).
Proof.
  induction 1 as [u w|url w r w1 ps u' w' Hne Hg Hr Ht Hc IH];
    intros fuel g e Hg0 Hw.
  - exists g, e. auto.
  - destruct (proj1 (headers_getitem_Some _ _) Ht) as [t Hget].
    assert (Hf : fetch instance_get url (world e) = (inr (r, t), w1))
      by (rewrite Hw; apply fetch_yields; auto).
    destruct (IH fuel (Suspended r)
                (mkEnv w1 (issued e ++ [url])%list (printed e)) eq_refl eq_refl)
      as (g' & e' & Hg' & Hw' & Hrun).
    exists g', e'. split; [exact Hg'|]. split; [exact Hw'|]. intros Hs.
    change (List.length (r :: ps) + fuel)%nat with (S (List.length ps + fuel)).
    cbn [exhaust]. rewrite (next_yield g e url r t w1 Hg0 Hne Hf).
    specialize (Hrun Hs).
    destruct (exhaust instance_get (List.length ps + fuel) (Suspended r)
                (mkEnv w1 (issued e ++ [url])%list (printed e))) as [ys e''].
    simpl in *. destruct Hrun as [ys' ->]. simpl. eauto.
Qed.

(** A loop that ends has consumed some pages and then halted. *)
Lemma exhaust_ends_halts (fuel : nat) (g : Generator) (e : Env World) :
  is_Some (fst (exhaust instance_get fuel g e)) ->
  exists ps u' w', consumed instance_get (pending g) (world e) ps u' w' /\
                   halts instance_get u' w'.
Proof.
  revert g e. induction fuel as [|fuel IH]; intros g e; simpl.
  - intros [ys [=]].
  - unfold next. destruct (pending g) as [[|a url]|] eqn:Hp.
    + intros _. exists [], (Some EmptyString), (world e). split; [constructor | exact I].
    + destruct (fetch instance_get (String a url) (world e)) as [[exn|[r t]] w'] eqn:Hf.
      * intros _. exists [], (Some (String a url)), (world e).
        split; [constructor | simpl; eauto].
      * destruct (exhaust instance_get fuel (Suspended r)
                    (mkEnv w' (issued e ++ [String a url])%list (printed e)))
          as [ys e''] eqn:Hx.
        simpl. intros Hs.
        assert (Hys : is_Some ys) by (destruct ys; [eauto | destruct Hs as [? [=]]]).
        destruct (IH (Suspended r)
                    (mkEnv w' (issued e ++ [String a url])%list (printed e)))
          as (ps & u' & w'' & Hc & Hh); [now rewrite Hx|].
        apply fetch_yields in Hf as (Hg & Hr & Ht).
        exists (r :: ps), u', w''. split; [|exact Hh].
        apply consumed_cons with (w1 := w'); try assumption; [discriminate|].
        apply headers_getitem_Some. eauto.
    + intros _. exists [], None, (world e). split; [constructor | exact I].
Qed.

(** A loop whose every response carries a next link never ends: with
    any fuel the consumer is still iterating, one request per unit. *)
Lemma exhaust_endless (P : string -> Prop) :
  (forall url w, P url ->
     exists r w', instance_get url w = (inr r, w') /\
                  raise_for_status r = inr tt /\
                  headers_contains "x-total-results" (headers r) = true /\
                  exists u', get_next_link (headers r) = Some u' /\ P u') ->
  forall (fuel : nat) (g : Generator) (e : Env World) (url : string),
    pending g = Some url -> P url -> url <> EmptyString ->
    exists e', exhaust instance_get fuel g e = (None, e') /\
               List.length (issued e') = (List.length (issued e) + fuel)%nat.
Proof.
  intros Hsrv. induction fuel as [|fuel IH]; intros g e url Hp HP Hne.
  - exists e. split; [reflexivity | lia].
  - destruct (Hsrv url (world e) HP) as (r & w' & Hg & Hr & Ht & u' & Hn & HP').
    destruct (proj1 (headers_getitem_Some _ _) Ht) as [t Hget].
    assert (Hf : fetch instance_get url (world e) = (inr (r, t), w'))
      by (apply fetch_yields; auto).
    destruct (IH (Suspended r) (mkEnv w' (issued e ++ [url])%list (printed e)) u'
                Hn HP' (get_next_link_nonempty _ _ Hn)) as (e' & Hx & Hlen).
    exists e'. cbn [exhaust]. rewrite (next_yield g e url r t w' Hp Hne Hf), Hx.
    split; [reflexivity|]. rewrite Hlen. simpl. rewrite length_app. simpl. lia.
Qed.

(** The [for] loop after a consumed run that halts at an exception of
    the [try] block: the table gathered so far is returned. *)
Lemma for_loop_stops_on_exception (url0 : string) (w : World)
    (ps : list Response) (u : string) (w1 w2 : World)
    (rowss : list (list Row)) (exn : Exn) (fuel : nat) :
  url0 <> EmptyString ->
  consumed instance_get (Some url0) w ps (Some u) w1 ->
  parsed read_csv ps rowss ->
  fetch instance_get u w1 = (inl exn, w2) ->
  (List.length ps < fuel)%nat ->
  exists urls, List.length urls = S (List.length ps) /\
    for_loop instance_get read_csv fuel (get_batch url0) [] (mkEnv w [] [])
    = (Returned (concat rowss), mkEnv w2 urls [exn]).
Proof.
  intros Hne0 Hc Hp Hf Hfuel.
  assert (Hne : u <> EmptyString).
  { intros ->. apply (consumed_nonempty _ _ _ _ _ Hc); [congruence | reflexivity]. }
  destruct (for_loop_consumed _ _ _ _ _ Hc rowss Hp (fuel - List.length ps)
              (get_batch url0) [] (mkEnv w [] []) eq_refl eq_refl)
    as (g' & urls & Hg' & Hlen & Hrun).
  replace (List.length ps + (fuel - List.length ps))%nat with fuel in Hrun by lia.
  exists (urls ++ [u])%list. split; [rewrite length_app; simpl; lia|].
  rewrite Hrun. simpl. destruct (fuel - List.length ps)%nat as [|k] eqn:Hk; [lia|].
  cbn [for_loop].
  rewrite (next_raise g' (mkEnv w1 urls []) u exn w2 Hg' Hne Hf). reflexivity.
Qed.


End PaginationFacts.

(** ** Claims about the pagination loop *)

Lemma build_url_nonempty (c : UniProtKBAPIConnection) (q : string)
    (kwargs : list (string * string)) :
  build_url c q kwargs <> EmptyString.
Proof.
  unfold build_url. destruct (base_url c); simpl; discriminate.
Qed.

(** C1. When the fetch of a page answers with an HTTP error status (the
    transport has handed the response over, so it is not retried) after
    the earlier pages were consumed, [query] stops paginating and
    returns exactly the records of the pages before the error, in
    order; the error is printed, not raised; one [get] was issued per
    page consumed and one for the failed page. *)
Theorem query_partial_on_http_error {World Row : Type}
    (instance_get : string -> World -> (Exn + Response) * World)
    (read_csv : string -> Exn + list Row)
    (c : UniProtKBAPIConnection) (q : string) (cache_time : Z)
    (kwargs : list (string * string)) (w : World)
    (ps : list Response) (rowss : list (list Row))
    (u : string) (w1 w2 : World) (r : Response) (fuel : nat) :
  consumed instance_get (Some (build_url c q kwargs)) w ps (Some u) w1 ->
  parsed read_csv ps rowss ->
  instance_get u w1 = (inr r, w2) ->
  400 <= status_code r < 600 ->
  (List.length ps < fuel)%nat ->
  exists urls, List.length urls = S (List.length ps) /\
    query instance_get read_csv c fuel q cache_time kwargs (mkEnv w [] [])
    = (Returned (concat rowss), mkEnv w2 urls [HTTPError (status_code r)]).
Proof.
  intros Hc Hp Hg Hs Hfuel. unfold query, _query.
  apply (for_loop_stops_on_exception instance_get read_csv _ w ps u w1 w2);
    try assumption; [apply build_url_nonempty|].
  now apply fetch_raises_for_status.
Qed.

(** C9. When a page answers 2xx without the [x-total-results] header,
    the page is not consumed: whatever its body and its [Link] header,
    [query] stops there and returns exactly the records of the pages
    before it; the [KeyError] is printed, not raised. *)
Theorem query_stops_without_total {World Row : Type}
    (instance_get : string -> World -> (Exn + Response) * World)
    (read_csv : string -> Exn + list Row)
    (c : UniProtKBAPIConnection) (q : string) (cache_time : Z)
    (kwargs : list (string * string)) (w : World)
    (ps : list Response) (rowss : list (list Row))
    (u : string) (w1 w2 : World) (r : Response) (fuel : nat) :
  consumed instance_get (Some (build_url c q kwargs)) w ps (Some u) w1 ->
  parsed read_csv ps rowss ->
  instance_get u w1 = (inr r, w2) ->
  200 <= status_code r < 300 ->
  headers_contains "x-total-results" (headers r) = false ->
  (List.length ps < fuel)%nat ->
  exists urls, List.length urls = S (List.length ps) /\
    query instance_get read_csv c fuel q cache_time kwargs (mkEnv w [] [])
    = (Returned (concat rowss), mkEnv w2 urls [KeyError "x-total-results"]).
Proof.
  intros Hc Hp Hg Hs Hh Hfuel. unfold query, _query.
  apply (for_loop_stops_on_exception instance_get read_csv _ w ps u w1 w2);
    try assumption; [apply build_url_nonempty|].
  unfold fetch. rewrite Hg. simpl. unfold raise_for_status.
  replace (400 <=? status_code r) with false by (symmetry; apply Z.leb_gt; lia).
  simpl. now rewrite (headers_getitem_None _ _ Hh).
Qed.

(** One concrete page of a run: the call is evaluated, the three tests of
    the [try] block too. *)
Ltac consume_page :=
  eapply consumed_cons;
  [ discriminate
  | vm_compute; reflexivity
  | reflexivity
  | reflexivity
  | ].

Lemma query_partial_on_http_error_witness :
  exists urls, List.length urls = 2%nat /\
    query (session_get Demo.conn Demo.error_on_page2) read_csv Demo.conn 5
          "organism_id:10090" 3600 [] Demo.env0
    = (Returned (concat [Demo.rows1]), mkEnv [Demo.url1; Demo.url2] urls [HTTPError 404]).
Proof.
  apply (query_partial_on_http_error
           (session_get Demo.conn Demo.error_on_page2) read_csv Demo.conn
           "organism_id:10090" 3600 [] [] [Demo.page1] [Demo.rows1]
           Demo.url2 [Demo.url1] [Demo.url1; Demo.url2] (Demo.status_page 404) 5).
  - consume_page. apply consumed_nil.
  - repeat constructor.
  - vm_compute. reflexivity.
  - simpl. lia.
  - simpl. lia.
Defined.

Lemma query_stops_without_total_witness :
  exists urls, List.length urls = 2%nat /\
    query (session_get Demo.conn Demo.total_missing_on_page2) read_csv Demo.conn 5
          "organism_id:10090" 3600 [] Demo.env0
    = (Returned (concat [Demo.rows1]),
       mkEnv [Demo.url1; Demo.url2] urls [KeyError "x-total-results"]).
Proof.
  apply (query_stops_without_total
           (session_get Demo.conn Demo.total_missing_on_page2) read_csv Demo.conn
           "organism_id:10090" 3600 [] [] [Demo.page1] [Demo.rows1]
           Demo.url2 [Demo.url1] [Demo.url1; Demo.url2]
           (Demo.page_without_total (Some Demo.url3) Demo.body2) 5).
  - consume_page. apply consumed_nil.
  - repeat constructor.
  - vm_compute. reflexivity.
  - simpl. lia.
  - reflexivity.
  - simpl. lia.
Defined.

(** C2, as the code has it.  For a run of N pages chained by next links,
    every page with a status below 400, an [x-total-results] header and
    a body the reader accepts, the last one without a matching next
    link, [query] returns the concatenation of the pages' records in
    page order and has issued exactly N calls of [get]; nothing is
    printed.  N = 1 is the single page without a pagination header. *)
Theorem query_concatenates_pages {World Row : Type}
    (instance_get : string -> World -> (Exn + Response) * World)
    (read_csv : string -> Exn + list Row)
    (c : UniProtKBAPIConnection) (q : string) (cache_time : Z)
    (kwargs : list (string * string)) (w w' : World)
    (ps : list Response) (rowss : list (list Row)) (fuel : nat) :
  consumed instance_get (Some (build_url c q kwargs)) w ps None w' ->
  parsed read_csv ps rowss ->
  (List.length ps < fuel)%nat ->
  exists urls, List.length urls = List.length ps /\
    query instance_get read_csv c fuel q cache_time kwargs (mkEnv w [] [])
    = (Returned (concat rowss), mkEnv w' urls []).
Proof.
  intros Hc Hp Hfuel. unfold query, _query.
  destruct (for_loop_consumed instance_get read_csv _ _ _ _ _ Hc rowss Hp
              (fuel - List.length ps) (get_batch (build_url c q kwargs)) []
              (mkEnv w [] []) eq_refl eq_refl)
    as (g' & urls & Hg' & Hlen & Hrun).
  replace (List.length ps + (fuel - List.length ps))%nat with fuel in Hrun by lia.
  exists urls. split; [exact Hlen|]. rewrite Hrun. simpl.
  destruct (fuel - List.length ps)%nat as [|k] eqn:Hk; [lia|].
  cbn [for_loop]. now rewrite (next_stop instance_get g' _ Hg').
Qed.

Lemma query_concatenates_pages_witness :
  exists urls, List.length urls = 3%nat /\
    query (session_get Demo.conn Demo.three_pages) read_csv Demo.conn 5
          "organism_id:10090" 3600 [] Demo.env0
    = (Returned (concat [Demo.rows1; Demo.rows2; Demo.rows3]),
       mkEnv [Demo.url1; Demo.url2; Demo.url3] urls []).
Proof.
  apply (query_concatenates_pages
           (session_get Demo.conn Demo.three_pages) read_csv Demo.conn
           "organism_id:10090" 3600 [] [] [Demo.url1; Demo.url2; Demo.url3]
           [Demo.page1; Demo.page2; Demo.page3]
           [Demo.rows1; Demo.rows2; Demo.rows3] 5).
  - consume_page. consume_page. consume_page. apply consumed_nil.
  - repeat constructor.
  - simpl. lia.
Defined.

(** C2 fails as stated: a single successful page (status 200, two rows,
    no next link) that lacks the [x-total-results] header is not
    consumed; [query] returns the empty table after one request. *)
Lemma query_single_page_without_total_counterexample :
  status_code (Demo.page_without_total None Demo.body1) = 200 /\
  get_next_link (headers (Demo.page_without_total None Demo.body1)) = None /\
  read_csv (text (Demo.page_without_total None Demo.body1)) = inr Demo.rows1 /\
  session_get Demo.conn Demo.single_page_without_total Demo.url1 []
    = (inr (Demo.page_without_total None Demo.body1), [Demo.url1]) /\
  query (session_get Demo.conn Demo.single_page_without_total) read_csv Demo.conn 5
        "organism_id:10090" 3600 [] Demo.env0
    = (Returned [], mkEnv [Demo.url1] [Demo.url1] [KeyError "x-total-results"]).
Proof. repeat split; vm_compute; reflexivity. Qed.





(** C10. The loop of [get_batch] has no bound on the number of pages.
    Started on a non-empty URL (as [_query] starts it) and iterated by
    its consumer, it ends exactly when, after some pages, a response
    yields no matching next link or the [try] block raises during a
    fetch; and against a server whose every answer is a consumable page
    with a matching next link it is still running after any number of
    iterations, each of which has issued one [get]. *)
Theorem get_batch_unbounded {World : Type}
    (instance_get : string -> World -> (Exn + Response) * World) :
  (forall (url : string) (e : Env World), url <> EmptyString ->
     ((exists fuel, is_Some (fst (exhaust instance_get fuel (get_batch url) e))) <->
      ((exists ps w', consumed instance_get (Some url) (world e) ps None w') \/
       (exists ps u w' exn w'',
          consumed instance_get (Some url) (world e) ps (Some u) w' /\
          fetch instance_get u w' = (inl exn, w''))))) /\
  (forall (P : string -> Prop),
     (forall url w, P url ->
        exists r w', instance_get url w = (inr r, w') /\
                     raise_for_status r = inr tt /\
                     headers_contains "x-total-results" (headers r) = true /\
                     exists u', get_next_link (headers r) = Some u' /\ P u') ->
     forall (url : string) (e : Env World) (fuel : nat),
       P url -> url <> EmptyString ->
       exists e', exhaust instance_get fuel (get_batch url) e = (None, e') /\
                  List.length (issued e') = (List.length (issued e) + fuel)%nat).
Proof.
  split.
  - intros url e Hne. split.
    + intros [fuel Hs].
      destruct (exhaust_ends_halts instance_get fuel _ e Hs) as (ps & u' & w' & Hc & Hh).
      simpl in Hc. destruct u' as [[|a u']|].
      * exfalso. apply (consumed_nonempty _ _ _ _ _ _ Hc); [congruence | reflexivity].
      * right. destruct Hh as (exn & w'' & Hf). exists ps, (String a u'), w', exn, w''. auto.
      * left. eauto.
    + intros [(ps & w' & Hc)|(ps & u & w' & exn & w'' & Hc & Hf)].
      * destruct (exhaust_consumed instance_get _ _ _ _ _ Hc 1 (get_batch url) e
                    eq_refl eq_refl) as (g' & e' & Hg' & _ & Hrun).
        exists (List.length ps + 1)%nat. apply Hrun. cbn [exhaust].
        rewrite (next_stop instance_get g' e' Hg'). simpl. eauto.
      * assert (Hu : u <> EmptyString).
        { intros ->. apply (consumed_nonempty _ _ _ _ _ _ Hc); [congruence | reflexivity]. }
        destruct (exhaust_consumed instance_get _ _ _ _ _ Hc 1 (get_batch url) e
                    eq_refl eq_refl) as (g' & e' & Hg' & Hw' & Hrun).
        exists (List.length ps + 1)%nat. apply Hrun. cbn [exhaust].
        rewrite <- Hw' in Hf.
        rewrite (next_raise instance_get g' e' u exn w'' Hg' Hu Hf). simpl. eauto.
  - intros P Hsrv url e fuel HP Hne.
    apply (exhaust_endless instance_get P Hsrv fuel (get_batch url) e url eq_refl HP Hne).
Qed.

Lemma get_batch_unbounded_witness :
  exists e', exhaust (session_get Demo.conn Demo.endless) 7 (get_batch Demo.url1) Demo.env0
             = (None, e') /\
             List.length (issued e') = (0 + 7)%nat.
Proof.
  apply (proj2 (get_batch_unbounded (session_get Demo.conn Demo.endless))
           (fun u => u = Demo.url1 \/ u = Demo.url2)).
  - intros url w Hurl.
    exists (Demo.ok_page "1" (Some Demo.url2) Demo.body2), (w ++ [url])%list.
    split; [destruct Hurl as [-> | ->]; vm_compute; reflexivity|].
    split; [reflexivity|]. split; [reflexivity|].
    exists Demo.url2. split; [reflexivity | now right].
  - now left.
  - discriminate.
Defined.

(** ** The request URL *)




Lemma join_cons (sep x : string) (l : list string) :
  Text.join sep (x :: l)
  = x +:+ match l with [] => EmptyString | _ => sep +:+ Text.join sep l end.
Proof. destruct l; simpl; [now rewrite append_nil_r | reflexivity]. Qed.


Lemma next_issued {World : Type}
    (instance_get : string -> World -> (Exn + Response) * World)
    (g : Generator) (e : Env World) :
  exists more, issued (snd (next instance_get g e)) = (issued e ++ more)%list /\
    (forall url, pending g = Some url -> url <> EmptyString ->
                 exists more', more = url :: more').
Proof.
  unfold next. destruct (pending g) as [[|a url]|].
  - exists []. simpl. rewrite app_nil_r. split; [reflexivity | congruence].
  - destruct (fetch instance_get (String a url) (world e)) as [[exn|[r t]] w'];
      exists [String a url]; simpl; (split; [reflexivity|]);
      intros u [= <-] _; eauto.
  - exists []. simpl. rewrite app_nil_r. split; [reflexivity | discriminate].
Qed.





(** ** Reading the URL back *)

Lemma contains_append (c : ascii) (a b : string) :
  Text.contains c (a +:+ b) = (Text.contains c a || Text.contains c b)%bool.
Proof.
  induction a as [|x a IH]; simpl; [reflexivity|]. now rewrite IH, orb_assoc.
Qed.

Lemma partition_append (sep : ascii) (a b : string) :
  Text.contains sep a = false ->
  Text.partition sep (a +:+ String sep b) = Some (a, b).
Proof.
  induction a as [|x a IH]; simpl.
  - intros _. now rewrite Ascii.eqb_refl.
  - intros H. apply orb_false_iff in H as [Hx Ha]. rewrite Hx, (IH Ha). reflexivity.
Qed.

Lemma split_append (sep : ascii) (a b : string) :
  Text.contains sep a = false ->
  Text.split sep (a +:+ String sep b) = a :: Text.split sep b.
Proof.
  induction a as [|x a IH]; simpl.
  - intros _. now rewrite Ascii.eqb_refl.
  - intros H. apply orb_false_iff in H as [Hx Ha]. rewrite Hx, (IH Ha). reflexivity.
Qed.

Lemma split_whole (sep : ascii) (a : string) :
  Text.contains sep a = false -> Text.split sep a = [a].
Proof.
  induction a as [|x a IH]; simpl; [reflexivity|].
  intros H. apply orb_false_iff in H as [Hx Ha]. rewrite Hx, (IH Ha). reflexivity.
Qed.

Lemma string_of_uint_digits (d : Decimal.uint) :
  Text.contains "&" (NilEmpty.string_of_uint d) = false.
Proof. induction d; simpl; [reflexivity | assumption ..]. Qed.

Lemma str_of_int_no_ampersand (z : Z) : Text.contains "&" (str_of_int z) = false.
Proof.
  unfold str_of_int, NilZero.string_of_int, NilZero.string_of_uint.
  destruct (Z.to_int z) as [d|d]; destruct d; simpl; try reflexivity;
    apply string_of_uint_digits.
Qed.





(** * Further properties of the code *)

(** ** Next links *)

Lemma occurs_none (lit s : string) :
  occurs lit s = false -> match_dots_then lit s = None.
Proof.
  induction s as [|c s IH]; simpl.
  - rewrite orb_false_r. now intros ->.
  - intros H. apply orb_false_iff in H as [Hh Ho]. rewrite Hh, (IH Ho).
    now destruct (Ascii.eqb c Text.newline).
Qed.

Lemma match_dots_then_app (lit u t d : string) :
  Text.contains Text.newline u = false ->
  match_dots_then lit t = Some d ->
  match_dots_then lit (u +:+ t) = Some (u +:+ d).
Proof.
  intros Hu Ht. induction u as [|c u IH]; simpl; [exact Ht|].
  simpl in Hu. apply orb_false_iff in Hu as [Hc Hu]. now rewrite Hc, (IH Hu).
Qed.

Lemma match_rel_next_here (rest : string) :
  occurs REL_NEXT rest = false ->
  match_dots_then REL_NEXT (REL_NEXT +:+ rest) = Some EmptyString.
Proof.
  intros H. apply occurs_none in H. unfold REL_NEXT in *. simpl in *.
  now rewrite H.
Qed.

(** X2. [re.match] anchors the pattern at the start of the value only:
    whatever follows [<URL>; rel="next"] is ignored, as long as it does
    not hold the literal [>; rel="next"] again. *)
Theorem get_next_link_ignores_trailing (h : Headers) (url rest : string) :
  headers_getitem "Link" h = inr ("<" +:+ url +:+ REL_NEXT +:+ rest) ->
  url <> EmptyString ->
  Text.contains Text.newline url = false ->
  occurs REL_NEXT rest = false ->
  get_next_link h = Some url.
Proof.
  intros Hv Hne Hn Hrest. rewrite (get_next_link_value h _ Hv).
  destruct url as [|c u]; [congruence|]. simpl in Hn.
  apply orb_false_iff in Hn as [Hc Hu].
  change ("<" +:+ String c u +:+ REL_NEXT +:+ rest)
    with (String "<" (String c (u +:+ REL_NEXT +:+ rest))).
  unfold LINK_REGEX_match. rewrite Hc.
  rewrite (match_dots_then_app REL_NEXT u (REL_NEXT +:+ rest) EmptyString Hu
             (match_rel_next_here rest Hrest)).
  now rewrite append_nil_r.
Qed.

Lemma get_next_link_ignores_trailing_witness :
  get_next_link (headers_of [("link", Demo.next_link Demo.url2 +:+ "; title=page 2")])
  = Some Demo.url2.
Proof.
  apply (get_next_link_ignores_trailing _ Demo.url2 "; title=page 2");
    [reflexivity | discriminate | reflexivity | reflexivity].
Defined.

Lemma get_next_link_single_line (h : Headers) (url : string) :
  get_next_link h = Some url -> Text.contains Text.newline url = false.
Proof.
  unfold get_next_link. destruct (headers_contains "Link" h); [|discriminate].
  destruct (headers_getitem "Link" h) as [|value]; [discriminate|].
  intros H. now apply LINK_REGEX_match_sound in H as [(_ & Hn & _) _].
Qed.

(** X1. A next link that matches is never empty and never spans lines, so
    it always passes the [while] test: the generator resumed after such a
    response sends exactly one [get], to that URL.  After a response
    without a matching link the generator finishes without sending
    anything. *)
Theorem next_follows_link {World : Type}
    (instance_get : string -> World -> (Exn + Response) * World)
    (r : Response) (e : Env World) :
  (forall url, get_next_link (headers r) = Some url ->
     url <> EmptyString /\ Text.contains Text.newline url = false /\
     issued (snd (next instance_get (Suspended r) e)) = (issued e ++ [url])%list) /\
  (get_next_link (headers r) = None ->
     next instance_get (Suspended r) e = (None, Finished, e)).
Proof.
  split.
  - intros url Hl. split; [now apply get_next_link_nonempty in Hl|].
    split; [now apply get_next_link_single_line in Hl|].
    pose proof (get_next_link_nonempty _ _ Hl) as Hne.
    unfold next. simpl. rewrite Hl. destruct url as [|a url]; [congruence|].
    destruct (fetch instance_get (String a url) (world e)) as [[exn|[r' t]] w']; reflexivity.
  - intros Hl. now apply next_stop.
Qed.

Lemma next_follows_link_witness :
  issued (snd (next (session_get Demo.conn Demo.three_pages) (Suspended Demo.page1)
                    (mkEnv [Demo.url1] [Demo.url1] [])))
  = ([Demo.url1] ++ [Demo.url2])%list /\
  next (session_get Demo.conn Demo.three_pages) (Suspended Demo.page3) Demo.env0
  = (None, Finished, Demo.env0).
Proof.
  split.
  - apply (proj1 (next_follows_link (session_get Demo.conn Demo.three_pages) Demo.page1
                    (mkEnv [Demo.url1] [Demo.url1] [])) Demo.url2). reflexivity.
  - apply (proj2 (next_follows_link (session_get Demo.conn Demo.three_pages) Demo.page3
                    Demo.env0)). reflexivity.
Defined.

(** ** What [query] returns, raises and prints *)

(** X3. Whatever exception [get] raises while a page is fetched (retries
    used up, connection lost, no adapter for the URL), [query] does not
    raise it: it is printed, pagination stops, and the records of the
    pages consumed before are returned. *)
Theorem query_partial_on_get_exception {World Row : Type}
    (instance_get : string -> World -> (Exn + Response) * World)
    (read_csv : string -> Exn + list Row)
    (c : UniProtKBAPIConnection) (q : string) (cache_time : Z)
    (kwargs : list (string * string)) (w : World)
    (ps : list Response) (rowss : list (list Row))
    (u : string) (w1 w2 : World) (exn : Exn) (fuel : nat) :
  consumed instance_get (Some (build_url c q kwargs)) w ps (Some u) w1 ->
  parsed read_csv ps rowss ->
  instance_get u w1 = (inl exn, w2) ->
  (List.length ps < fuel)%nat ->
  exists urls, List.length urls = S (List.length ps) /\
    query instance_get read_csv c fuel q cache_time kwargs (mkEnv w [] [])
    = (Returned (concat rowss), mkEnv w2 urls [exn]).
Proof.
  intros Hc Hp Hg Hfuel. unfold query, _query.
  apply (for_loop_stops_on_exception instance_get read_csv _ w ps u w1 w2);
    try assumption; [apply build_url_nonempty|].
  unfold fetch. now rewrite Hg.
Qed.

Lemma query_partial_on_get_exception_witness :
  exists urls, List.length urls = 1%nat /\
    query (session_get Demo.conn Demo.always_503) read_csv Demo.conn 5
          "organism_id:10090" 3600 [] Demo.env0
    = (Returned (concat []), mkEnv (replicate 6 Demo.url1) urls [RetryError]).
Proof.
  apply (query_partial_on_get_exception
           (session_get Demo.conn Demo.always_503) read_csv Demo.conn
           "organism_id:10090" 3600 [] [] [] [] Demo.url1 [] (replicate 6 Demo.url1)
           RetryError 5).
  - apply consumed_nil.
  - constructor.
  - vm_compute. reflexivity.
  - simpl. lia.
Defined.

Lemma next_yield_inv {World : Type}
    (instance_get : string -> World -> (Exn + Response) * World)
    (g g' : Generator) (e e' : Env World) (r : Response) (t : string) :
  next instance_get g e = (Some (r, t), g', e') ->
  exists url, pending g = Some url /\ url <> EmptyString /\
    fetch instance_get url (world e) = (inr (r, t), world e') /\
    g' = Suspended r /\ issued e' = (issued e ++ [url])%list /\ printed e' = printed e.
Proof.
  unfold next. destruct (pending g) as [[|a url]|]; try discriminate.
  destruct (fetch instance_get (String a url) (world e)) as [[exn|[r0 t0]] w'] eqn:Hf;
    [discriminate|].
  intros [= <- <- <- <-]. exists (String a url). simpl. repeat split; auto; discriminate.
Qed.

Lemma next_stop_inv {World : Type}
    (instance_get : string -> World -> (Exn + Response) * World)
    (g g' : Generator) (e e' : Env World) :
  next instance_get g e = (None, g', e') ->
  printed e' = printed e \/ exists exn, printed e' = (printed e ++ [exn])%list.
Proof.
  unfold next. destruct (pending g) as [[|a url]|]; try (intros [= <- <-]; now left).
  destruct (fetch instance_get (String a url) (world e)) as [[exn|[r0 t0]] w'];
    [|discriminate].
  intros [= <- <-]. right. eauto.
Qed.

Lemma for_loop_raised_by_reader {World Row : Type}
    (instance_get : string -> World -> (Exn + Response) * World)
    (read_csv : string -> Exn + list Row)
    (fuel : nat) (g : Generator) (data : list Row) (e e' : Env World) (exn : Exn) :
  for_loop instance_get read_csv fuel g data e = (Raised exn, e') ->
  exists r, read_csv (text r) = inl exn /\
            raise_for_status r = inr tt /\
            headers_contains "x-total-results" (headers r) = true.
Proof.
  revert g data e. induction fuel as [|fuel IH]; intros g data e; simpl; [discriminate|].
  destruct (next instance_get g e) as [[[[r t]|] g'] e1] eqn:Hn; [|discriminate].
  destruct (read_csv (text r)) as [exn'|rows] eqn:Hr.
  - intros [= <- <-]. exists r. split; [exact Hr|].
    apply next_yield_inv in Hn as (url & _ & _ & Hf & _).
    apply fetch_yields in Hf as (_ & Hs & Ht). split; [exact Hs|].
    apply headers_getitem_Some. eauto.
  - apply IH.
Qed.



(** X5. One query prints at most one error, and only on the way to
    returning a table: when it raises, or is still running, nothing has
    been printed. *)
Theorem query_prints_at_most_once {World Row : Type}
    (instance_get : string -> World -> (Exn + Response) * World)
    (read_csv : string -> Exn + list Row)
    (c : UniProtKBAPIConnection) (fuel : nat) (q : string) (cache_time : Z)
    (kwargs : list (string * string)) (e : Env World) :
  let '(out, e') := query instance_get read_csv c fuel q cache_time kwargs e in
  printed e' = printed e \/
  exists exn rows, printed e' = (printed e ++ [exn])%list /\ out = Returned rows.
Proof.
  unfold query, _query. generalize (get_batch (build_url c q kwargs)) (@nil Row).
  revert e. induction fuel as [|fuel IH]; intros e g data; simpl; [now left|].
  destruct (next instance_get g e) as [[[[r t]|] g'] e1] eqn:Hn.
  - apply next_yield_inv in Hn as (url & _ & _ & _ & _ & _ & Hp).
    destruct (read_csv (text r)) as [exn'|rows]; [now left|].
    specialize (IH e1 g' (data ++ rows)%list).
    destruct (for_loop instance_get read_csv fuel g' (data ++ rows)%list e1) as [out e'].
    now rewrite Hp in IH.
  - apply next_stop_inv in Hn as [Hp|[exn Hp]]; [now left | right; eauto].
Qed.

Lemma exhaust_yields {World : Type}
    (instance_get : string -> World -> (Exn + Response) * World)
    (fuel : nat) (g : Generator) (e e' : Env World)
    (ys : list (Response * string)) :
  exhaust instance_get fuel g e = (Some ys, e') ->
  (exists u' w1, consumed instance_get (pending g) (world e) (map fst ys) u' w1 /\
                 halts instance_get u' w1) /\
  Forall (fun y => headers_getitem "x-total-results" (headers (fst y)) = inr (snd y)) ys /\
  exists urls, issued e' = (issued e ++ urls)%list /\
               (List.length ys <= List.length urls <= S (List.length ys))%nat.
Proof.
  revert g e ys. induction fuel as [|fuel IH]; intros g e ys; simpl; [discriminate|].
  destruct (next instance_get g e) as [[[[r t]|] g'] e1] eqn:Hn.
  - destruct (exhaust instance_get fuel g' e1) as [[ys'|] e2] eqn:Hx; simpl; [|discriminate].
    intros [= <- <-].
    apply next_yield_inv in Hn as (url & Hp & Hne & Hf & -> & Hi & _).
    destruct (IH _ _ _ Hx) as ((u' & w1 & Hc & Hh') & Hall & urls & Hiss & Hlen).
    apply fetch_yields in Hf as (Hg & Hs & Ht).
    assert (Hh : headers_contains "x-total-results" (headers r) = true)
      by (apply headers_getitem_Some; eauto).
    split; [|split].
    + exists u', w1. rewrite Hp. split; [|exact Hh'].
      now apply consumed_cons with (w1 := world e1).
    + constructor; [exact Ht | exact Hall].
    + exists (url :: urls). rewrite Hiss, Hi, <- app_assoc. split; [reflexivity|].
      simpl. lia.
  - intros [= <- <-]. split; [|split].
    + exists (pending g), (world e). split; [constructor|].
      unfold next in Hn. unfold halts. destruct (pending g) as [[|a url]|]; try exact I.
      destruct (fetch instance_get (String a url) (world e)) as [[exn|[r0 t0]] w'];
        [eauto | discriminate].
    + constructor.
    + destruct (next_issued instance_get g e) as (more & Hm & _). rewrite Hn in Hm.
      exists more. split; [exact Hm|]. simpl.
      unfold next in Hn. destruct (pending g) as [[|a url]|].
      * injection Hn as _ <-. apply (f_equal (@List.length _)) in Hm.
        rewrite length_app in Hm. simpl in Hm. lia.
      * destruct (fetch instance_get (String a url) (world e)) as [[exn|[r0 t0]] w'];
          [|discriminate].
        injection Hn as _ <-. simpl in Hm. apply app_inv_head in Hm as <-. simpl. lia.
      * injection Hn as _ <-. apply (f_equal (@List.length _)) in Hm.
        rewrite length_app in Hm. simpl in Hm. lia.
Qed.

(** X6. Iterating [get_batch] to its end yields exactly the pages the
    loop consumed before it halted, in order, each paired with the
    [x-total-results] value of its own response, after one [get] per
    page yielded and at most one more. *)
Theorem get_batch_yields_consumed_pages {World : Type}
    (instance_get : string -> World -> (Exn + Response) * World)
    (fuel : nat) (url : string) (e e' : Env World)
    (ys : list (Response * string)) :
  exhaust instance_get fuel (get_batch url) e = (Some ys, e') ->
  (exists u' w1, consumed instance_get (Some url) (world e) (map fst ys) u' w1 /\
                 halts instance_get u' w1) /\
  Forall (fun y => headers_getitem "x-total-results" (headers (fst y)) = inr (snd y)) ys /\
  exists urls, issued e' = (issued e ++ urls)%list /\
               (List.length ys <= List.length urls <= S (List.length ys))%nat.
Proof. apply exhaust_yields. Qed.

Lemma get_batch_yields_consumed_pages_witness :
  (exists u' w1,
     consumed (session_get Demo.conn Demo.error_on_page2) (Some Demo.url1) (world Demo.env0)
              (map fst [(Demo.page1, "4")]) u' w1 /\
     halts (session_get Demo.conn Demo.error_on_page2) u' w1) /\
  Forall (fun y => headers_getitem "x-total-results" (headers (fst y)) = inr (snd y))
         [(Demo.page1, "4")] /\
  exists urls, issued (mkEnv [Demo.url1; Demo.url2] [Demo.url1; Demo.url2] [HTTPError 404])
               = (issued Demo.env0 ++ urls)%list /\
               (List.length [(Demo.page1, "4")] <= List.length urls
                <= S (List.length [(Demo.page1, "4")]))%nat.
Proof.
  apply (get_batch_yields_consumed_pages
           (session_get Demo.conn Demo.error_on_page2) 5 Demo.url1 Demo.env0).
  vm_compute. reflexivity.
Defined.

(** ** The session *)





Lemma failing_run_tail (forcelist : list Z) (srv : Server) (url : string) (n k : nat) :
  failing_run forcelist srv url n (S k) -> failing_run forcelist srv url (S n) k.
Proof.
  intros H i Hi. replace (S n + i)%nat with (n + S i)%nat by lia. apply H. lia.
Qed.






(** ** The parameter dict and the URL *)

Lemma dict_get_set (k v k' : string) (d : list (string * string)) :
  dict_get k' (dict_set k v d) = if String.eqb k k' then Some v else dict_get k' d.
Proof.
  induction d as [|[k0 v0] d IH]; simpl.
  - destruct (String.eqb k k'); reflexivity.
  - destruct (String.eqb_spec k0 k) as [->|Hne]; simpl.
    + destruct (String.eqb k k'); reflexivity.
    + rewrite IH. destruct (String.eqb_spec k0 k') as [->|Hne'].
      * destruct (String.eqb_spec k k'); [congruence | reflexivity].
      * reflexivity.
Qed.

(** X11. In the parameter dict an extra parameter wins over the value of
    the connection, the last one given wins among equals, and every
    other name keeps what the dict literal gave it. *)
Theorem params_lookup (c : UniProtKBAPIConnection) (q : string)
    (kwargs : list (string * string)) (k : string) :
  dict_get k (params c q kwargs)
  = match dict_get k (rev kwargs) with
    | Some v => Some v
    | None => dict_get k (base_params c q)
    end.
Proof.
  unfold params. fold (base_params c q).
  induction kwargs as [|[k0 v0] kwargs IH] using rev_ind; [reflexivity|].
  rewrite foldl_app, rev_app_distr. simpl. rewrite dict_get_set.
  destruct (String.eqb k0 k); [reflexivity | exact IH].
Qed.

Lemma dict_set_keys_eq (k v : string) (d : list (string * string)) :
  map fst (dict_set k v d)
  = (map fst d ++ if decide (k ∈ map fst d) then [] else [k])%list.
Proof.
  induction d as [|[k0 v0] d IH]; simpl.
  - destruct (decide (k ∈ [])) as [H|_]; [now apply elem_of_nil in H | reflexivity].
  - destruct (String.eqb_spec k0 k) as [->|Hne]; simpl.
    + destruct (decide (k ∈ k :: map fst d)) as [_|H].
      * now rewrite app_nil_r.
      * exfalso. apply H. apply elem_of_cons. now left.
    + rewrite IH. f_equal.
      destruct (decide (k ∈ map fst d)) as [H|H];
        destruct (decide (k ∈ k0 :: map fst d)) as [H'|H']; try reflexivity.
      * exfalso. apply H'. apply elem_of_cons. now right.
      * exfalso. apply elem_of_cons in H' as [H'|H']; [congruence | contradiction].
Qed.

Lemma dict_set_keys (k v : string) (d : list (string * string)) :
  NoDup (map fst d) ->
  NoDup (map fst (dict_set k v d)) /\
  exists extra, map fst (dict_set k v d) = (map fst d ++ extra)%list.
Proof.
  intros Hnd. rewrite dict_set_keys_eq. split; [|eauto].
  destruct (decide (k ∈ map fst d)) as [H|H].
  - now rewrite app_nil_r.
  - apply NoDup_app. split; [exact Hnd|]. split.
    + intros x Hx Hx'. apply elem_of_cons in Hx' as [->|Hx']; [contradiction|].
      now apply elem_of_nil in Hx'.
    + repeat constructor. apply not_elem_of_nil.
Qed.

Lemma params_keys_shape (c : UniProtKBAPIConnection) (q : string)
    (kwargs : list (string * string)) :
  NoDup (map fst (params c q kwargs)) /\
  exists extra, map fst (params c q kwargs) = "query" :: "format" :: "size" :: extra.
Proof.
  unfold params. fold (base_params c q).
  induction kwargs as [|[k0 v0] kwargs IH] using rev_ind.
  - split; [|now exists []]. simpl.
    repeat (apply NoDup_cons; split; [rewrite ?elem_of_cons, elem_of_nil; intuition discriminate|]).
    apply NoDup_nil_2.
  - rewrite foldl_app. simpl. destruct IH as (Hnd & extra & E).
    destruct (dict_set_keys k0 v0 _ Hnd) as (Hnd' & extra' & E').
    split; [exact Hnd'|]. exists (extra ++ extra')%list. now rewrite E', E.
Qed.

(** X12. Every parameter name occurs once in the dict, and the dict
    always starts with [query], [format] and [size] in this order,
    whatever extra parameters are passed. *)
Theorem params_keys (c : UniProtKBAPIConnection) (q : string)
    (kwargs : list (string * string)) :
  NoDup (map fst (params c q kwargs)) /\
  exists extra, map fst (params c q kwargs) = "query" :: "format" :: "size" :: extra.
Proof. apply params_keys_shape. Qed.


Lemma parse_qsl_join (kvs : list (string * string)) :
  kvs <> [] -> Forall plain_param kvs ->
  parse_qsl (Text.join "&" (map render_param kvs)) = kvs.
Proof.
  intros Hne Hall. induction Hall as [|[k v] kvs (Hk1 & Hk2 & Hv) Hall IH]; [congruence|].
  simpl in Hk1, Hk2, Hv.
  assert (Hr : Text.contains "&" (render_param (k, v)) = false).
  { unfold render_param. simpl. rewrite contains_append, Hk1. simpl. exact Hv. }
  assert (Hp : Text.partition "=" (render_param (k, v)) = Some (k, v)).
  { unfold render_param. simpl.
    change (k +:+ "=" +:+ v) with (k +:+ String "=" v). now apply partition_append. }
  unfold parse_qsl in *. destruct kvs as [|kv' kvs].
  - simpl. rewrite (split_whole _ _ Hr). simpl. now rewrite Hp.
  - change (map render_param ((k, v) :: kv' :: kvs))
      with (render_param (k, v) :: map render_param (kv' :: kvs)).
    rewrite join_cons.
    change (map render_param (kv' :: kvs))
      with (render_param kv' :: map render_param kvs) at 1.
    cbv iota.
    change ("&" +:+ ?x) with (String "&" x).
    rewrite (split_append _ _ _ Hr). simpl map at 1. rewrite Hp.
    f_equal. apply IH. discriminate.
Qed.



(** ** The demo application *)

Lemma bind_inr {A B : Type} (m : Exn + A) (f : A -> Exn + B) (b : B) :
  m ≫= f = inr b -> exists a, m = inr a /\ f a = inr b.
Proof. destruct m as [exn|a]; simpl; [discriminate | eauto]. Qed.

Lemma getitem_inr (d : list (string * string)) (k v : string) :
  App.getitem d k = inr v -> dict_get k d = Some v.
Proof. unfold App.getitem. destruct (dict_get k d); [now intros [= ->] | discriminate]. Qed.

Lemma mapM_inr {A B : Type} (f : A -> Exn + B) (l : list A) (ys : list B) :
  mapM f l = inr ys -> Forall2 (fun x y => f x = inr y) l ys.
Proof.
  revert ys. induction l as [|x l IH]; simpl; intros ys.
  - intros [= <-]. constructor.
  - destruct (f x) as [exn|y] eqn:Hx; simpl; [discriminate|].
    destruct (mapM f l) as [exn|k]; simpl; [discriminate|].
    intros [= <-]. constructor; [exact Hx | now apply IH].
Qed.

Lemma dict_get_value (Q : string -> Prop) (d : list (string * string)) (k v : string) :
  Forall (fun kv => Q (snd kv)) d -> dict_get k d = Some v -> Q v.
Proof.
  induction 1 as [|[k0 v0] d Hq Hd IH]; simpl; [discriminate|].
  destruct (String.eqb k0 k); [now intros [= <-] | exact IH].
Qed.

Lemma contains_join (c : ascii) (sep : string) (l : list string) :
  Text.contains c sep = false ->
  Forall (fun x => Text.contains c x = false) l ->
  Text.contains c (Text.join sep l) = false.
Proof.
  intros Hsep. induction 1 as [|x l Hx Hl IH]; [reflexivity|].
  rewrite join_cons, contains_append, Hx. destruct l; [reflexivity|].
  rewrite contains_append, Hsep. exact IH.
Qed.

Lemma FIELDS_codes_plain :
  Forall (fun kv => Text.contains "&" (snd kv) = false) App.FIELDS.
Proof. repeat constructor. Qed.

Lemma ORGANISM_IDS_plain :
  Forall (fun kv => Text.contains "&" (snd kv) = false) App.ORGANISM_IDS.
Proof. repeat constructor. Qed.

Lemma expression_plain (organism_id : string) (min_mass max_mass : Z) :
  Text.contains "&" organism_id = false ->
  Text.contains "&" (App.expression organism_id min_mass max_mass) = false.
Proof.
  intros Ho. unfold App.expression.
  repeat (rewrite contains_append; apply orb_false_iff; split);
    try reflexivity; try assumption; apply str_of_int_no_ampersand.
Qed.

(** X14. Whatever organism and columns are chosen and whatever masses are
    entered, the request the application sends reads back as four
    parameters: the boolean expression as [query], the codes of the
    chosen columns as [fields] (they travel inside the query text, after
    an [&]), then [format=tsv] and [size=500]. *)
Theorem app_request_parameters (organism : string) (selected_fields : list string)
    (min_mass max_mass : Z) (query_text : string) :
  App.search_query organism selected_fields min_mass max_mass = inr query_text ->
  exists organism_id codes,
    dict_get organism App.ORGANISM_IDS = Some organism_id /\
    Forall2 (fun label code => dict_get label App.FIELDS = Some code)
            selected_fields codes /\
    parse_qsl (url_query_string (build_url App.uniprot_conn query_text []))
    = [("query", App.expression organism_id min_mass max_mass);
       ("fields", Text.join "," codes);
       ("format", "tsv"); ("size", "500")].
Proof.
  unfold App.search_query, App.fields. intros H.
  apply bind_inr in H as (organism_id & Ho & H).
  apply bind_inr in H as (joined & Hj & H).
  apply bind_inr in Hj as (codes & Hm & Hj).
  change (inr (Text.join "," codes) = inr (A := Exn) joined) in Hj.
  assert (joined = Text.join "," codes) as -> by congruence.
  change (inr (App.expression organism_id min_mass max_mass +:+ "&fields=" +:+
               Text.join "," codes) = inr (A := Exn) query_text) in H.
  assert (query_text = App.expression organism_id min_mass max_mass +:+ "&fields=" +:+
                       Text.join "," codes) as -> by congruence.
  clear H Hj.
  apply getitem_inr in Ho.
  exists organism_id, codes. split; [exact Ho|].
  apply mapM_inr in Hm.
  assert (Hcodes : Forall2 (fun label code => dict_get label App.FIELDS = Some code)
                           selected_fields codes).
  { eapply Forall2_impl; [exact Hm|]. intros label code. apply getitem_inr. }
  split; [exact Hcodes|].
  assert (Hplain : Forall (fun x => Text.contains "&" x = false) codes).
  { clear -Hcodes. induction Hcodes as [|label code ls cs H Hc IH]; constructor; [|exact IH].
    exact (dict_get_value (fun v => Text.contains "&" v = false) _ _ _ FIELDS_codes_plain H). }
  pose proof (dict_get_value (fun v => Text.contains "&" v = false) _ _ _
                ORGANISM_IDS_plain Ho) as Hoid. cbv beta in Hoid.
  set (kvs := [("query", App.expression organism_id min_mass max_mass);
               ("fields", Text.join "," codes); ("format", "tsv"); ("size", "500")]).
  assert (Hurl : build_url App.uniprot_conn
                   (App.expression organism_id min_mass max_mass +:+ "&fields=" +:+
                    Text.join "," codes) []
                 = base_url App.uniprot_conn +:+ String "?"
                     (Text.join "&" (map render_param kvs))).
  { unfold build_url, params, kvs, render_param. cbn [foldl map fst snd Text.join].
    rewrite !append_assoc. reflexivity. }
  rewrite Hurl. unfold url_query_string.
  rewrite (partition_append "?" (base_url App.uniprot_conn) _ eq_refl).
  apply parse_qsl_join; [discriminate|].
  unfold kvs.
  repeat (constructor; [split; [reflexivity | split; [reflexivity|]]; cbn [snd]|]).
  - now apply expression_plain.
  - now apply contains_join.
  - reflexivity.
  - reflexivity.
  - constructor.
Qed.

Lemma app_request_parameters_witness :
  exists organism_id codes,
    dict_get "Mouse" App.ORGANISM_IDS = Some organism_id /\
    Forall2 (fun label code => dict_get label App.FIELDS = Some code)
            ["Entry"; "Organism ID"] codes /\
    parse_qsl (url_query_string
                 (build_url App.uniprot_conn
                    "(reviewed:true) AND (organism_id:10090) AND (mass:[0 TO 5000])&fields=accession,organism_id"
                    []))
    = [("query", App.expression organism_id 0 5000);
       ("fields", Text.join "," codes);
       ("format", "tsv"); ("size", "500")].
Proof.
  apply (app_request_parameters "Mouse" ["Entry"; "Organism ID"] 0 5000).
  reflexivity.
Defined.

(** X15. What the user sees.  When the first fetch fails, whatever the
    exception of [get], the page shows a result count of 0 and an empty
    table, not the error box; the error box only ever shows an exception
    of the table reader. *)
Theorem app_shows_errors_of_the_reader_only {World Row : Type}
    (instance_get : string -> World -> (Exn + Response) * World)
    (read_csv : string -> Exn + list Row)
    (c : UniProtKBAPIConnection) (fuel : nat) (query_text : string) :
  (forall (w w' : World) (exn : Exn),
     instance_get (build_url c query_text []) w = (inl exn, w') ->
     App.on_search instance_get read_csv c (S fuel) query_text (mkEnv w [] [])
     = (Some (App.Results 0 []), mkEnv w' [build_url c query_text []] [exn])) /\
  (forall (e e' : Env World) (exn : Exn),
     App.on_search instance_get read_csv c fuel query_text e = (Some (App.Error exn), e') ->
     exists r, read_csv (text r) = inl exn /\ raise_for_status r = inr tt /\
               headers_contains "x-total-results" (headers r) = true).
Proof.
  split.
  - intros w w' exn Hg. unfold App.on_search, query, _query. cbn [for_loop].
    rewrite (next_raise instance_get (get_batch (build_url c query_text []))
               (mkEnv w [] []) (build_url c query_text []) exn w'
               eq_refl (build_url_nonempty c query_text []));
      [reflexivity | unfold fetch; simpl; now rewrite Hg].
  - intros e e' exn. unfold App.on_search.
    destruct (query instance_get read_csv c fuel query_text 3600 [] e) as [[df|exn'|] e1] eqn:Hq;
      try discriminate.
    intros [= <- <-]. unfold query, _query in Hq.
    now apply for_loop_raised_by_reader in Hq.
Qed.

Lemma app_shows_errors_of_the_reader_only_witness :
  App.on_search (session_get App.uniprot_conn Scenario.unreachable) read_csv
                App.uniprot_conn 3 "organism_id:10090" (mkEnv [] [] [])
  = (Some (App.Results 0 []),
     mkEnv (replicate 6 Demo.url1) [build_url App.uniprot_conn "organism_id:10090" []]
           [ConnectionError]).
Proof.
  apply (proj1 (app_shows_errors_of_the_reader_only
                  (session_get App.uniprot_conn Scenario.unreachable) read_csv
                  App.uniprot_conn 2 "organism_id:10090") [] (replicate 6 Demo.url1)
               ConnectionError).
  vm_compute. reflexivity.
Defined.

Lemma urlopen_recovers_from_failures (srv : Server) (url : string) (resp : Response)
    (k n : nat) (r : Retry) (w : Wire) :
  Z.to_nat (total r) = n -> (k <= n)%nat ->
  failing_run (status_forcelist r) srv url (List.length w) k ->
  srv (List.length w + k)%nat url = RawResponse resp ->
  (status_code resp ∉ status_forcelist r) -> 200 <= status_code resp < 300 ->
  urlopen n r srv url w = (inr resp, (w ++ replicate (S k) url)%list).
Proof.
  revert n r w. induction k as [|k IH]; intros n r w Ht Hk Hrun Hok Hnf H2.
  - rewrite Nat.add_0_r in Hok.
    destruct n; simpl; rewrite Hok, (is_retry_success _ _ Hnf H2); reflexivity.
  - destruct n as [|n]; [lia|].
    destruct (increment r) as [r'|] eqn:Hi.
    2:{ apply increment_None in Hi. lia. }
    destruct (increment_Some _ _ Hi) as [Ht' Hf].
    assert (E : urlopen n r' srv url (w ++ [url])%list
                = (inr resp, ((w ++ [url]) ++ replicate (S k) url)%list)).
    { apply IH.
      - lia.
      - lia.
      - rewrite Hf, length_app. simpl. rewrite Nat.add_1_r. now apply failing_run_tail.
      - rewrite length_app. simpl.
        now replace (List.length w + 1 + k)%nat with (List.length w + S k)%nat by lia.
      - now rewrite Hf.
      - exact H2. }
    rewrite <- app_assoc in E. simpl.
    destruct (Hrun O) as [E0 | (bad & E0 & Hs)]; [lia | |];
      rewrite Nat.add_0_r in E0; rewrite E0.
    + rewrite Hi. exact E.
    + rewrite (is_retry_forced _ _ Hs), Hi. exact E.
Qed.

(** X16. Lost connections are retried like forced statuses: over https,
    after fewer than [max_attempts] failed attempts in a row, each a
    connection error or a forced status, a 2xx answer outside the forced
    list is handed back, and the URL was requested once per failure and
    once more. *)
Theorem recovery_after_failures
    (c : UniProtKBAPIConnection) (srv : Server) (url : string) (w : Wire)
    (k : nat) (resp : Response) :
  Text.startswith "https://" (Text.lower url) = true ->
  (k < max_attempts c)%nat ->
  failing_run (status_forcelist (retries c)) srv url (List.length w) k ->
  srv (List.length w + k)%nat url = RawResponse resp ->
  (status_code resp ∉ status_forcelist (retries c)) ->
  200 <= status_code resp < 300 ->
  session_get c srv url w = (inr resp, (w ++ replicate (S k) url)%list).
Proof.
  intros Hs Hk Hrun Hok Hnf H2. unfold session_get, get_adapter. rewrite Hs.
  apply urlopen_recovers_from_failures; try assumption;
    [reflexivity | unfold max_attempts in Hk; lia].
Qed.

Lemma recovery_after_failures_witness :
  session_get Demo.conn (Scenario.drops_then_serves 3) Demo.url3 []
  = (inr Demo.page3, ([] ++ replicate 4 Demo.url3)%list).
Proof.
  apply (recovery_after_failures Demo.conn (Scenario.drops_then_serves 3) Demo.url3
           [] 3 Demo.page3).
  - reflexivity.
  - vm_compute. lia.
  - intros i Hi. left. unfold Scenario.drops_then_serves. simpl.
    destruct (Nat.ltb_spec i 3); [reflexivity | lia].
  - reflexivity.
  - apply (bool_decide_unpack _). vm_compute. exact I.
  - simpl. lia.
Defined.
